(** * INHA album downloader: a shallow embedding of [inha_dowloader.py]

    The development starts with the Python builtins the program relies on
    ([str.split], [str.partition], [str.rsplit], [int]), then gives
    [RangeList], the regular expressions of [PATTERNS], [parse_album_page],
    [INHAAlbumDownloader.__init__] and [INHAAlbumDownloader.dowload], and the
    part of [main] that turns the pages asked for into a set of image names.
    The properties come last. *)

From stdpp Require Import gmap strings list.
From Stdlib Require Import Ascii String ZArith Lia.

Local Open Scope string_scope.

(** ** Exceptions and results *)

(** What a [ValueError] raised by the program itself says. *)
Inductive value_error :=
  | invalid_literal (text : string)
      (* int(text): invalid literal for int() with base 10 *)
  | invalid_range (term : string) (start stop : Z)
      (* f"Invalid range {i!r}: {start} must be < {end}" *)
  | not_enough_values.
      (* name, num = ... with a single value on the right *)

(** What [ast.literal_eval] can raise on a text that stands for no literal,
    as the standard library documents it; none of these is [ParseError],
    which is a class of the program. *)
Inductive literal_eval_error :=
  | literal_ValueError
  | literal_TypeError
  | literal_SyntaxError
  | literal_MemoryError
  | literal_RecursionError.

Inductive exception :=
  | ParseError (msg : string)
  | ValueError (what : value_error)
  | LiteralError (what : literal_eval_error)
  | AttributeError
  | AssertionError
  | IndexError
  | KeyError
  | OSError     (* what [mkdir] raises, an [OSError] of some subclass *)
  | URLError    (* what a fetch raises, whatever its class *)
  | SystemExit.

Inductive result (A : Type) :=
  | Ok (a : A)
  | Raise (e : exception).
Arguments Ok {A} a.
Arguments Raise {A} e.

(** Sequencing: an exception raised by the first computation ends the whole;
    stdpp's [x ← r; k] is used for it. *)
#[global] Instance result_bind : MBind result := λ A B k r,
  match r with
  | Ok a => k a
  | Raise e => Raise e
  end.

Definition is_ParseError (e : exception) : bool :=
  match e with ParseError _ => true | _ => false end.

(** ** Python string methods used by the program *)

Module Py.

(** [s.split(sep)] for a one-character separator: every occurrence of the
    separator cuts, so the empty string gives one empty field. *)
Fixpoint split (sep : ascii) (s : string) : list string :=
  match s with
  | "" => [""]
  | String c s' =>
      if decide (c = sep) then "" :: split sep s'
      else match split sep s' with
           | w :: ws => String c w :: ws
           | [] => [String c ""]
           end
  end.

(** [s.partition(sep)]: the text before the first separator, the separator
    itself (or the empty string when there is none) and the text after. *)
Fixpoint partition (sep : ascii) (s : string) : string * string * string :=
  match s with
  | "" => ("", "", "")
  | String c s' =>
      if decide (c = sep) then ("", String sep "", s')
      else let '(before, ok, after) := partition sep s' in
           (String c before, ok, after)
  end.

(** [s.rsplit(sep, 1)]: cut once, at the last separator; a one-element list
    when there is no separator. *)
Fixpoint rsplit1 (sep : ascii) (s : string) : list string :=
  match s with
  | "" => [""]
  | String c s' =>
      match rsplit1 sep s' with
      | [head; tail] => [String c head; tail]
      | _ => if decide (c = sep) then [""; s'] else [s]
      end
  end.

(** [s.replace(old, new)] for one-character [old] and [new]. *)
Fixpoint replace (old new : ascii) (s : string) : string :=
  match s with
  | "" => ""
  | String c s' => String (if decide (c = old) then new else c) (replace old new s')
  end.

(** *** [int(text)]

    Base ten, on text whose characters have codes below 256: optional
    surrounding white space, an optional sign, then digits, where single
    underscores may separate digits.  (Digits and spaces of other scripts,
    which [int] reads as well, and the limit recent interpreters put on the
    number of digits are left out.) *)

Definition code (c : ascii) : N := N_of_ascii c.

Definition int_space (c : ascii) : bool :=
  let n := code c in
  ((9 <=? n) && (n <=? 13) || (n =? 32) || (n =? 133) || (n =? 160))%N.

Definition digit (c : ascii) : option Z :=
  let n := code c in
  if ((48 <=? n) && (n <=? 57))%N then Some (Z.of_N n - 48)%Z else None.

Fixpoint lstrip (s : string) : string :=
  match s with
  | String c s' => if int_space c then lstrip s' else s
  | "" => ""
  end.

Inductive int_state := after_digit | after_underscore | trailing.

Fixpoint int_digits (st : int_state) (acc : Z) (s : string) : option Z :=
  match s with
  | "" => match st with after_underscore => None | _ => Some acc end
  | String c s' =>
      match st, digit c with
      | (after_digit | after_underscore), Some d =>
          int_digits after_digit (10 * acc + d)%Z s'
      | after_digit, None =>
          if decide (c = "_"%char) then int_digits after_underscore acc s'
          else if int_space c then int_digits trailing acc s'
          else None
      | after_underscore, None => None
      | trailing, _ => if int_space c then int_digits trailing acc s' else None
      end
  end.

Definition int_unsigned (s : string) : option Z :=
  match s with
  | String c s' =>
      match digit c with
      | Some d => int_digits after_digit d s'
      | None => None
      end
  | "" => None
  end.

Definition int_opt (s : string) : option Z :=
  match lstrip s with
  | String c s' =>
      if decide (c = "+"%char) then int_unsigned s'
      else if decide (c = "-"%char) then Z.opp <$> int_unsigned s'
      else int_unsigned (String c s')
  | "" => None
  end.

Definition int (s : string) : result Z :=
  match int_opt s with
  | Some z => Ok z
  | None => Raise (ValueError (invalid_literal s))
  end.

(** [range(start, stop)] as a list. *)
Definition range (start stop : Z) : list Z := seqZ start (stop - start).

(** [max(l)] of a list that is not empty. *)
Definition max (l : list Z) : Z :=
  match l with
  | x :: l' => foldl Z.max x l'
  | [] => 0%Z
  end.

(** [l[index]]: a negative index counts from the end. *)
Definition getitem {A} (l : list A) (index : Z) : result A :=
  let n := Z.of_nat (List.length l) in
  let k := if (index <? 0)%Z then (index + n)%Z else index in
  if ((0 <=? k) && (k <? n))%Z then
    match l !! Z.to_nat k with
    | Some x => Ok x
    | None => Raise IndexError
    end
  else Raise IndexError.

(** A line feed, as text. *)
Definition LF : string := String (ascii_of_nat 10) "".

(** [c in s] for a character. *)
Fixpoint occurs (c : ascii) (s : string) : bool :=
  match s with
  | String c' s' => bool_decide (c' = c) || occurs c s'
  | "" => false
  end.

End Py.

(** ** [RangeList] *)

(** The loop of [RangeList.__init__] over the terms still to read, [only]
    being the set built so far. *)
Fixpoint RangeList_loop (terms : list string) (only : gset Z) : result (gset Z) :=
  match terms with
  | [] => Ok only
  | i :: terms' =>
      let '(start, ok, stop) := Py.partition "-" i in
      start ← Py.int start ;
      if decide (ok ≠ "") then
        stop ← Py.int stop ;
        if (start >=? stop)%Z then
          Raise (ValueError (invalid_range i start stop))
        else RangeList_loop terms' (only ∪ list_to_set (Py.range start (stop + 1)))
      else RangeList_loop terms' (only ∪ {[ start ]})
  end.

(** The set [only] at the end of [__init__]. *)
Definition RangeList_set (page_ranges : string) : result (gset Z) :=
  RangeList_loop (Py.split "," page_ranges) ∅.

(** The list itself: [super().__init__(only)] stores the elements of the set,
    each once, in the set's iteration order. *)
Definition RangeList (page_ranges : string) : result (list Z) :=
  only ← RangeList_set page_ranges ; Ok (elements only).

(** ** Regular expressions

    The three expressions of [PATTERNS] are built from literal text and from
    greedy repetitions of one character class, one of which is the group the
    program reads with [match.group(1)].  [Re] gives these the meaning
    Python's [re] gives them: a repetition first takes as many characters as
    it can and gives them back one at a time while the rest of the pattern
    fails, and [search] returns the match that starts leftmost. *)

Module Re.

Inductive item :=
  | lit (text : string)
  | many (cls : ascii → bool) (least : nat)
  | group (cls : ascii → bool) (least : nat).

Definition pattern := list item.

Fixpoint strip_prefix (text s : string) : option string :=
  match text, s with
  | "", _ => Some s
  | String a text', String b s' =>
      if decide (a = b) then strip_prefix text' s' else None
  | String _ _, "" => None
  end.

(** How many characters at the front of [s] are in the class. *)
Fixpoint run (cls : ascii → bool) (s : string) : nat :=
  match s with
  | String c s' => if cls c then S (run cls s') else 0
  | "" => 0
  end.

Fixpoint take (n : nat) (s : string) : string :=
  match n, s with
  | S n', String c s' => String c (take n' s')
  | _, _ => ""
  end.

Fixpoint drop (n : nat) (s : string) : string :=
  match n, s with
  | S n', String _ s' => drop n' s'
  | _, _ => s
  end.

(** Try [k] repetitions, then [k - 1], down to [least]. *)
Fixpoint longest_first {A} (try : nat → option A) (least k : nat) : option A :=
  match try k with
  | Some r => Some r
  | None =>
      match k with
      | S k' => if decide (least ≤ k')%nat then longest_first try least k' else None
      | 0 => None
      end
  end.

Definition repeat {A} (cls : ascii → bool) (least : nat) (s : string)
    (try : nat → option A) : option A :=
  let n := run cls s in
  if decide (least ≤ n)%nat then longest_first try least n else None.

(** Match the pattern at the front of [s]; [g] is the text of the group so
    far, and the result is the text of the group. *)
Fixpoint match_at (p : pattern) (s g : string) : option string :=
  match p with
  | [] => Some g
  | lit text :: p' =>
      match strip_prefix text s with
      | Some s' => match_at p' s' g
      | None => None
      end
  | many cls least :: p' =>
      repeat cls least s (λ k, match_at p' (drop k s) g)
  | group cls least :: p' =>
      repeat cls least s (λ k, match_at p' (drop k s) (take k s))
  end.

(** [pattern.search(s)], as the text of group 1 of the match found. *)
Fixpoint search (p : pattern) (s : string) : option string :=
  match match_at p s "" with
  | Some g => Some g
  | None =>
      match s with
      | String _ s' => search p s'
      | "" => None
      end
  end.

(** The positions of [s], counted from [from], at which the pattern
    matches. *)
Fixpoint match_starts (p : pattern) (from : nat) (s : string) : list nat :=
  match match_at p s "" with Some _ => [from] | None => [] end ++
  match s with
  | String _ s' => match_starts p (S from) s'
  | "" => []
  end.

(** The group of the match that starts first, if the pattern matches
    anywhere. *)
Definition leftmost_group (p : pattern) (s : string) : option string :=
  k ← head (match_starts p 0 s); match_at p (drop k s) "".

(** Character classes.  White space on text is the white space of
    Unicode, here for codes below 256; the dot is anything but a line
    feed. *)
Definition space (c : ascii) : bool :=
  let n := N_of_ascii c in
  ((9 <=? n) && (n <=? 13) || (28 <=? n) && (n <=? 32) || (n =? 133) || (n =? 160))%N.

Definition dot (c : ascii) : bool := negb (N_of_ascii c =? 10)%N.

Definition other_than (x : ascii) (c : ascii) : bool := negb (bool_decide (c = x)).

(** [[a-f/0-9-]] *)
Definition hex_path (c : ascii) : bool :=
  let n := N_of_ascii c in
  ((97 <=? n) && (n <=? 102) || (n =? 47) || (48 <=? n) && (n <=? 57) || (n =? 45))%N.

End Re.

(** ** [INHAAlbumDownloader] *)

(** The expressions of [PATTERNS].  [image_list] is the text
    [var images = ], one or more characters other than a semicolon (the
    group), and a semicolon; [iiif] is the text ['server': '/medias], one or
    more characters of the class a-f, slash, 0-9, hyphen (the group), and a
    quote and a comma; [title] is the opening tag, white space, any
    characters but a line feed (the group), white space, and the closing
    tag. *)
Definition image_list_pattern : Re.pattern :=
  [Re.lit "var images = "; Re.group (Re.other_than ";") 1; Re.lit ";"].

Definition iiif_pattern : Re.pattern :=
  [Re.lit "'server': '/medias"; Re.group Re.hex_path 1; Re.lit "',"].

Definition title_pattern : Re.pattern :=
  [Re.lit "<title>"; Re.many Re.space 0; Re.group Re.dot 0;
   Re.many Re.space 0; Re.lit "</title>"].

(** [PATTERNS], in the order of the dictionary. *)
Definition PATTERNS : list (string * Re.pattern) :=
  [ ("image_list", image_list_pattern);
    ("iiif", iiif_pattern);
    ("title", title_pattern) ].

(** The loop of [parse_album_page] over the patterns still to apply. *)
Fixpoint parse_album_page_loop (patterns : list (string * Re.pattern))
    (page : string) (results : gmap string string) : result (gmap string string) :=
  match patterns with
  | [] => Ok results
  | (name, pattern) :: patterns' =>
      match Re.search pattern page with
      | None => Raise (ParseError (name +:+ " not found"))
      | Some group1 =>
          parse_album_page_loop patterns' page (<[name := group1]> results)
      end
  end.

Definition parse_album_page (page : string) : result (gmap string string) :=
  parse_album_page_loop PATTERNS page ∅.

(** [parsed[key]] *)
Definition getitem (parsed : gmap string string) (key : string) : result string :=
  match parsed !! key with
  | Some v => Ok v
  | None => Raise KeyError
  end.

Record INHAAlbumDownloader := {
  image_names : list string;
  title : string;
  iiif : string;
}.

Section Construction.

(** [urlopen(album_url).read().decode("utf8")]: the text of the page, or
    the exception of the transport. *)
Variable urlopen_read : string → result string.

(** [ast.literal_eval], of the standard library, on the values the
    downloader is written for: it gives a list of strings or raises.  (On
    the text of any other literal the real function returns that value and
    [__init__] stores it as it is; the model leaves that out.) *)
Variable literal_eval : string → literal_eval_error + list string.

Definition init (album_url : string) : result INHAAlbumDownloader :=
  albumpage ← urlopen_read album_url;
  parsed ← parse_album_page albumpage;
  image_list ← getitem parsed "image_list";
  names ← match literal_eval image_list with
          | inr names => Ok names
          | inl e => Raise (LiteralError e)
          end;
  title ← getitem parsed "title";
  iiif ← getitem parsed "iiif";
  Ok {| image_names := names; title := Py.replace "/" "_" title; iiif := iiif |}.

End Construction.

Definition image_count (self : INHAAlbumDownloader) : nat :=
  List.length (image_names self).

(** [BASE_URL.format(image=image, iiif=self.iiif)] *)
Definition image_url (self : INHAAlbumDownloader) (image : string) : string :=
  "https://bibliotheque-numerique.inha.fr/i/?IIIF=" +:+ iiif self +:+ "/iiif/"
    +:+ image +:+ ".tif/full/full/0/native.jpg".

(** *** The download context and what a run does to the outside

    [dl_context] is the dictionary handed to the callbacks.  The callbacks of
    the program only read it, so a call is recorded with the value the
    dictionary has at that moment. *)

Record dl_context := {
  current_image : option string;      (* None until the first image *)
  processed_images : nat;
  transferred : Z;
  total_transferred : Z;
  total_images : nat;
  current_image_url : option string;  (* no such key until the first image *)
}.

Inductive event :=
  | on_start (context : dl_context)
  | on_progress (context : dl_context)
  | on_completion (context : dl_context) (skipped cancelled : bool)
  | urlretrieve_call (url outfile : string).

(** How one call of [urlretrieve] goes: the calls of its report hook, each
    with a block number, a block size and a total size, and how it ends.  A
    fetch that is interrupted or fails may or may not have created the output
    file by then. *)
Inductive fetch_end :=
  | fetched
  | interrupted (file_created : bool)   (* KeyboardInterrupt *)
  | failed (file_created : bool).       (* any other exception *)

Record fetch := {
  reports : list (Z * Z * Z);
  fetch_ending : fetch_end;
}.

Record state := {
  context : dl_context;
  files : gset string;     (* the paths that exist *)
  calls : list event;      (* callbacks and fetches so far, oldest first *)
}.

Definition with_context (f : dl_context → dl_context) (st : state) : state :=
  {| context := f (context st); files := files st; calls := calls st |}.

Definition with_files (f : gset string → gset string) (st : state) : state :=
  {| context := context st; files := f (files st); calls := calls st |}.

Definition call (e : event) (st : state) : state :=
  {| context := context st; files := files st; calls := calls st ++ [e] |}.

(** [dl_context.update(current_image=outfile, transferred=0,
    current_image_url=url)] *)
Definition update_current (outfile url : string) (c : dl_context) : dl_context :=
  {| current_image := Some outfile;
     processed_images := processed_images c;
     transferred := 0;
     total_transferred := total_transferred c;
     total_images := total_images c;
     current_image_url := Some url |}.

(** [dl_context["processed_images"] += 1] *)
Definition add_processed (c : dl_context) : dl_context :=
  {| current_image := current_image c;
     processed_images := processed_images c + 1;
     transferred := transferred c;
     total_transferred := total_transferred c;
     total_images := total_images c;
     current_image_url := current_image_url c |}.

Definition add_transferred (in_bytes : Z) (c : dl_context) : dl_context :=
  {| current_image := current_image c;
     processed_images := processed_images c;
     transferred := transferred c + in_bytes;
     total_transferred := total_transferred c + in_bytes;
     total_images := total_images c;
     current_image_url := current_image_url c |}.

(** [_urlretrieve_cb] *)
Definition urlretrieve_cb (st : state) (report : Z * Z * Z) : state :=
  let '(blocks, block_size, _total_size) := report in
  let in_bytes := (blocks * block_size)%Z in
  let st := with_context (add_transferred in_bytes) st in
  call (on_progress (context st)) st.

(** How the body of the loop, and the loop, can end. *)
Inductive control :=
  | continue
  | break
  | raise (e : exception).

Inductive run_end :=
  | finished                 (* the loop ran out of images *)
  | stopped                  (* the loop was left by [break] *)
  | raised (e : exception).

Section Download.

(** [pathlib]: [Path(text)] and [directory / name], paths standing for
    themselves as text. *)
Variable Path : string → string.
Variable joinpath : string → string → string.

(** The network and the disk: how the fetch of a URL to a file goes, and
    whether a directory can be created. *)
Variable urlretrieve : string → string → fetch.
Variable mkdir_ok : string → bool.

Variable self : INHAAlbumDownloader.

(** One turn of the loop of [dowload], for the image [i].  (The loop
    counts its turns with [enumerate] and never reads the count.) *)
Definition dowload_body (outdir : string) (only : gset string) (i : string)
    (st : state) : state * control :=
  match Py.rsplit1 "_" i with
  | [_name; num] =>
      let outfile := joinpath outdir (num +:+ ".jpg") in
      let url := image_url self i in
      let st := with_context (update_current outfile url) st in
      if bool_decide (only ≠ ∅) && bool_decide (i ∉ only) then (st, continue)
      else
        let st := call (on_start (context st)) st in
        if bool_decide (outfile ∈ files st) then
          let st := with_context add_processed st in
          let st := call (on_completion (context st) true false) st in
          (st, continue)
        else
          let st := call (urlretrieve_call url outfile) st in
          let f := urlretrieve url outfile in
          let st := foldl urlretrieve_cb st (reports f) in
          match fetch_ending f with
          | fetched =>
              let st := with_files (λ fs, fs ∪ {[ outfile ]}) st in
              let st := with_context add_processed st in
              let st := call (on_completion (context st) false false) st in
              (st, continue)
          | interrupted file_created =>
              let st :=
                if file_created then with_files (λ fs, fs ∪ {[ outfile ]}) st
                else st in
              (* outfile.unlink(), FileNotFoundError passed over *)
              let st :=
                if bool_decide (outfile ∈ files st)
                then with_files (λ fs, fs ∖ {[ outfile ]}) st
                else st in
              let st := call (on_completion (context st) false true) st in
              (st, break)
          | failed file_created =>
              let st :=
                if file_created then with_files (λ fs, fs ∪ {[ outfile ]}) st
                else st in
              (st, raise URLError)
          end
  | _ => (st, raise (ValueError not_enough_values))
  end.

(** The same turn as a relation, case by case: from [st], the image [i]
    leads to a state and a way to go on.  [same_image c c0] says that [c]
    differs from [c0] in the byte counts at most, and [progress_of c0 es] that
    [es] are calls of [on_progress] with such contexts. *)
Definition same_image (c c0 : dl_context) : Prop :=
  current_image c = current_image c0 ∧
  processed_images c = processed_images c0 ∧
  total_images c = total_images c0 ∧
  current_image_url c = current_image_url c0.

Definition progress_of (c0 : dl_context) (es : list event) : Prop :=
  Forall (λ e, ∃ c, e = on_progress c ∧ same_image c c0) es.

Definition is_selected (only : gset string) (i : string) : Prop :=
  only = ∅ ∨ i ∈ only.

#[global] Instance is_selected_dec only i : Decision (is_selected only i).
Proof. unfold is_selected. apply _. Defined.

Inductive turn (outdir : string) (only : gset string) (i : string) (st : state)
    : state → control → Prop :=
  | turn_malformed :
      (∀ name num, Py.rsplit1 "_" i ≠ [name; num]) →
      turn outdir only i st st (raise (ValueError not_enough_values))
  | turn_filtered name num :
      Py.rsplit1 "_" i = [name; num] →
      ¬ is_selected only i →
      turn outdir only i st
        {| context := update_current (joinpath outdir (num +:+ ".jpg"))
                        (image_url self i) (context st);
           files := files st;
           calls := calls st |}
        continue
  | turn_skipped name num c0 :
      Py.rsplit1 "_" i = [name; num] →
      is_selected only i →
      c0 = update_current (joinpath outdir (num +:+ ".jpg"))
             (image_url self i) (context st) →
      joinpath outdir (num +:+ ".jpg") ∈ files st →
      turn outdir only i st
        {| context := add_processed c0;
           files := files st;
           calls := calls st
                    ++ [on_start c0; on_completion (add_processed c0) true false] |}
        continue
  | turn_fetched name num c0 c1 es :
      Py.rsplit1 "_" i = [name; num] →
      is_selected only i →
      c0 = update_current (joinpath outdir (num +:+ ".jpg"))
             (image_url self i) (context st) →
      joinpath outdir (num +:+ ".jpg") ∉ files st →
      fetch_ending (urlretrieve (image_url self i) (joinpath outdir (num +:+ ".jpg")))
      = fetched →
      same_image c1 c0 →
      progress_of c0 es →
      turn outdir only i st
        {| context := add_processed c1;
           files := files st ∪ {[ joinpath outdir (num +:+ ".jpg") ]};
           calls := calls st
                    ++ [on_start c0;
                        urlretrieve_call (image_url self i)
                          (joinpath outdir (num +:+ ".jpg"))]
                    ++ es ++ [on_completion (add_processed c1) false false] |}
        continue
  | turn_interrupted name num c0 c1 es file_created :
      Py.rsplit1 "_" i = [name; num] →
      is_selected only i →
      c0 = update_current (joinpath outdir (num +:+ ".jpg"))
             (image_url self i) (context st) →
      joinpath outdir (num +:+ ".jpg") ∉ files st →
      fetch_ending (urlretrieve (image_url self i) (joinpath outdir (num +:+ ".jpg")))
      = interrupted file_created →
      same_image c1 c0 →
      progress_of c0 es →
      turn outdir only i st
        {| context := c1;
           files := files st;
           calls := calls st
                    ++ [on_start c0;
                        urlretrieve_call (image_url self i)
                          (joinpath outdir (num +:+ ".jpg"))]
                    ++ es ++ [on_completion c1 false true] |}
        break
  | turn_failed name num c0 c1 es file_created :
      Py.rsplit1 "_" i = [name; num] →
      is_selected only i →
      c0 = update_current (joinpath outdir (num +:+ ".jpg"))
             (image_url self i) (context st) →
      joinpath outdir (num +:+ ".jpg") ∉ files st →
      fetch_ending (urlretrieve (image_url self i) (joinpath outdir (num +:+ ".jpg")))
      = failed file_created →
      same_image c1 c0 →
      progress_of c0 es →
      turn outdir only i st
        {| context := c1;
           files := if file_created
                    then files st ∪ {[ joinpath outdir (num +:+ ".jpg") ]}
                    else files st;
           calls := calls st
                    ++ [on_start c0;
                        urlretrieve_call (image_url self i)
                          (joinpath outdir (num +:+ ".jpg"))]
                    ++ es |}
        (raise URLError).

Fixpoint dowload_loop (outdir : string) (only : gset string)
    (names : list string) (st : state) : state * run_end :=
  match names with
  | [] => (st, finished)
  | i :: names' =>
      match dowload_body outdir only i st with
      | (st', continue) => dowload_loop outdir only names' st'
      | (st', break) => (st', stopped)
      | (st', raise e) => (st', raised e)
      end
  end.

(** What a caller can see of a run: the paths that exist afterwards, the
    callbacks and fetches made, and how the call ended. *)
Record run := {
  files_after : gset string;
  calls_made : list event;
  ending : run_end;
}.

Definition run_of (r : state * run_end) : run :=
  {| files_after := files (fst r); calls_made := calls (fst r); ending := snd r |}.

Definition dowload (directory : option string) (only : option (gset string))
    (fs : gset string) : run :=
  match only with
  | None =>
      (* None has no issubset *)
      {| files_after := fs; calls_made := []; ending := raised AttributeError |}
  | Some only =>
      if bool_decide (only ⊆ list_to_set (image_names self)) then
        let dl_context :=
          {| current_image := None;
             processed_images := 0;
             transferred := 0;
             total_transferred := 0;
             total_images :=
               if bool_decide (only ≠ ∅) then size only else image_count self;
             current_image_url := None |} in
        let outdir :=
          Path (match directory with
                | Some d => if bool_decide (d ≠ "") then d else title self
                | None => title self
                end) in
        if bool_decide (outdir ∈ fs) then
          run_of (dowload_loop outdir only (image_names self)
                    {| context := dl_context; files := fs; calls := [] |})
        else if mkdir_ok outdir then
          run_of (dowload_loop outdir only (image_names self)
                    {| context := dl_context; files := fs ∪ {[ outdir ]}; calls := [] |})
        else {| files_after := fs; calls_made := []; ending := raised OSError |}
      else {| files_after := fs; calls_made := []; ending := raised AssertionError |}
  end.

End Download.

(** ** [main]: from the pages asked for to the names of the images *)

(** [args.images]: the default when the option is absent, [RangeList] of its
    text otherwise; [argparse] turns a [ValueError] of the conversion into
    its own error exit. *)
Definition args_images (images : option string) : result (list Z) :=
  match images with
  | None => Ok []
  | Some text =>
      match RangeList text with
      | Ok l => Ok l
      | Raise (ValueError _) => Raise SystemExit
      | Raise e => Raise e
      end
  end.

(** The set comprehension over [dl.image_names[i-1]]. *)
Fixpoint names_of_pages (names : list string) (images : list Z) : result (gset string) :=
  match images with
  | [] => Ok ∅
  | i :: images' =>
      name ← Py.getitem names (i - 1);
      only ← names_of_pages names images';
      Ok ({[ name ]} ∪ only)
  end.

(** The set [only] that [main] hands to [dowload]. *)
Definition main_only (self : INHAAlbumDownloader) (images : list Z) : result (gset string) :=
  if bool_decide (images ≠ []) && (Z.of_nat (image_count self) <? Py.max images)%Z
  then Raise SystemExit
  else names_of_pages (image_names self) images.

(** ** Reading a record of calls *)

Definition event_context (e : event) : option dl_context :=
  match e with
  | on_start c | on_progress c | on_completion c _ _ => Some c
  | urlretrieve_call _ _ => None
  end.

(** The URL of the image an event is about. *)
Definition event_url (e : event) : option string :=
  match e with
  | urlretrieve_call url _ => Some url
  | on_start c | on_progress c | on_completion c _ _ => current_image_url c
  end.

(** The URLs of the images started, in order. *)
Definition starts (es : list event) : list string :=
  omap (λ e, match e with on_start c => current_image_url c | _ => None end) es.

(** The fetches made, in order. *)
Definition fetches (es : list event) : list (string * string) :=
  omap (λ e, match e with urlretrieve_call url out => Some (url, out) | _ => None end) es.

(** The completions reported, in order: the URL of the image and the two
    flags, [skipped] and [cancelled]. *)
Definition completions (es : list event) : list (option string * bool * bool) :=
  omap (λ e, match e with
             | on_completion c skipped cancelled =>
                 Some (current_image_url c, skipped, cancelled)
             | _ => None
             end) es.

(** The counts of processed images the completions report, in order. *)
Definition completed_counts (es : list event) : list nat :=
  omap (λ e, match e with
             | on_completion c _ _ => Some (processed_images c)
             | _ => None
             end) es.

(** ** The selection a range expression stands for

    The terms of an expression as the specification describes them, to
    compare [RangeList] with: a single number [N], or a range [N-M] with
    [N < M]; [N] stands for the set of [N] alone, [N-M] for the numbers from
    [N] to [M]. *)

Inductive term :=
  | single (n : Z)
  | span (n m : Z).

Definition implied (t : term) (z : Z) : Prop :=
  match t with
  | single n => z = n
  | span n m => (n ≤ z ≤ m)%Z
  end.

Definition read_term (text : string) : option term :=
  let '(a, ok, b) := Py.partition "-" text in
  n ← Py.int_opt a;
  if decide (ok = "") then Some (single n)
  else m ← Py.int_opt b; if decide (n < m)%Z then Some (span n m) else None.

(** ** A small album to run the program on *)

(** A decoder for lists of plainly quoted strings, which is what the pages of
    the archive hold; in the examples it stands for [ast.literal_eval], with
    which it agrees on such lists and on a list that is cut short.  Any other
    text it answers with a syntax error, where the real function may well
    return a value or raise another exception; no example uses it there. *)
Inductive literal_state :=
  | before_list
  | before_item (items : list string)
  | in_string (quote : ascii) (items : list string) (text : string)
  | after_item (items : list string)
  | after_list (items : list string).

Definition blank (c : ascii) : bool :=
  bool_decide (c = " "%char) || bool_decide (c = ascii_of_nat 9)
  || bool_decide (c = ascii_of_nat 10) || bool_decide (c = ascii_of_nat 13).

Definition is_quote (c : ascii) : bool :=
  bool_decide (c = "'"%char) || bool_decide (c = ascii_of_nat 34).

Fixpoint literal_strings_from (st : literal_state) (s : string)
    : literal_eval_error + list string :=
  match s with
  | "" =>
      match st with
      | after_list items => inr (reverse items)
      | _ => inl literal_SyntaxError
      end
  | String c s' =>
      match st with
      | before_list =>
          if bool_decide (c = "["%char) then literal_strings_from (before_item []) s'
          else if bool_decide (c = " "%char) || bool_decide (c = ascii_of_nat 9)
          then literal_strings_from before_list s'
          else inl literal_SyntaxError
      | before_item items =>
          if is_quote c then literal_strings_from (in_string c items "") s'
          else if bool_decide (c = "]"%char) then literal_strings_from (after_list items) s'
          else if blank c then literal_strings_from (before_item items) s'
          else inl literal_SyntaxError
      | in_string quote items text =>
          if bool_decide (c = quote)
          then literal_strings_from (after_item (String.rev text :: items)) s'
          else if bool_decide (c = "\"%char) || bool_decide (c = ascii_of_nat 10)
          then inl literal_SyntaxError
          else literal_strings_from (in_string quote items (String c text)) s'
      | after_item items =>
          if bool_decide (c = ","%char) then literal_strings_from (before_item items) s'
          else if bool_decide (c = "]"%char) then literal_strings_from (after_list items) s'
          else if blank c then literal_strings_from (after_item items) s'
          else inl literal_SyntaxError
      | after_list items =>
          if blank c then literal_strings_from (after_list items) s'
          else inl literal_SyntaxError
      end
  end.

Definition literal_strings (s : string) : literal_eval_error + list string :=
  literal_strings_from before_list s.

(** A page with the three markers, one with two titles, one whose list of
    images is cut short, and the server that holds them. *)
Definition example_page : string :=
  "<html><head><title> Recueil / planches </title></head><script>var images = ['a_1', 'b_2', 'c_3']; var viewer = {'server': '/medias/3f/0a-1', 'zoom': 2};</script></html>".

Definition two_titles_page : string :=
  "<title>first</title>" +:+ Py.LF
  +:+ "<title>second</title> var images = ['a_1']; 'server': '/medias/3f',".

Definition cut_list_page : string :=
  "<title>cut</title> var images = ['a_1', 'b_2'; 'server': '/medias/3f',".

Definition example_urlopen (album_url : string) : result string :=
  if bool_decide (album_url = "https://bibliotheque-numerique.inha.fr/viewer/1") then Ok example_page
  else if bool_decide (album_url = "https://bibliotheque-numerique.inha.fr/viewer/2") then Ok cut_list_page
  else Raise URLError.

Definition example_album : INHAAlbumDownloader :=
  {| image_names := ["a_1"; "b_2"; "c_3"]; title := "Recueil _ planches "; iiif := "/3f/0a-1" |}.

(** Paths as plain text, joined with a slash. *)
Definition plain_path (text : string) : string := text.
Definition slash (directory name : string) : string := directory +:+ "/" +:+ name.

(** A network on which every fetch goes through in two blocks, and one on
    which the fetch to [victim] is interrupted after the file was created. *)
Definition two_blocks : list (Z * Z * Z) := [(0, 8192, -1); (1, 8192, -1)]%Z.

Definition fetch_all (url outfile : string) : fetch :=
  {| reports := two_blocks; fetch_ending := fetched |}.

Definition interrupt_at (victim : string) (url outfile : string) : fetch :=
  {| reports := two_blocks;
     fetch_ending := if bool_decide (outfile = victim) then interrupted true else fetched |}.

Definition any_mkdir (directory : string) : bool := true.

(** The state in which [dowload] enters its loop when the directory [out]
    is there and [total] images are to be processed. *)
Definition example_start (total : nat) : state :=
  {| context := {| current_image := None; processed_images := 0;
                   transferred := 0; total_transferred := 0;
                   total_images := total; current_image_url := None |};
     files := {[ "out" ]};
     calls := [] |}.

(** ** What one term of a range expression adds

    The body of the loop of [RangeList], for one term: the numbers it adds to
    the set, or the exception it raises. *)
Definition RangeList_term (i : string) : result (gset Z) :=
  let '(start, ok, stop) := Py.partition "-" i in
  start ← Py.int start;
  if decide (ok ≠ "") then
    stop ← Py.int stop;
    if (start >=? stop)%Z then Raise (ValueError (invalid_range i start stop))
    else Ok (list_to_set (Py.range start (stop + 1)))
  else Ok {[ start ]}.

(** ** [StdoutCBHandler]

    The handler that logs to the terminal, each method by the texts it hands
    to [stdout.write], in order.  ([on_start] formats a floating-point
    percentage and is left out.) *)









Definition StdoutCBHandler_on_completion (context : dl_context)
    (skipped cancelled : bool) : list string :=
  (if skipped then ["skipped"] else if cancelled then ["cancelled"] else [])
  ++ [Py.LF].

(** Whether every character of a text is in a class. *)
Fixpoint all_in (cls : ascii → bool) (s : string) : bool :=
  match s with
  | String c s' => cls c && all_in cls s'
  | "" => true
  end.

(** The output file of an image, when its name has an underscore. *)
Definition outfile_of (joinpath : string → string → string) (outdir i : string)
    : option string :=
  match Py.rsplit1 "_" i with
  | [_name; num] => Some (joinpath outdir (num +:+ ".jpg"))
  | _ => None
  end.

(** ** The setting of a run

    The directory [dowload] writes to, and the state in which it enters its
    loop, [fs] being the paths that exist then. *)
Definition outdir_of (Path : string → string) (self : INHAAlbumDownloader)
    (directory : option string) : string :=
  Path (match directory with
        | Some d => if bool_decide (d ≠ "") then d else title self
        | None => title self
        end).

Definition dowload_start (self : INHAAlbumDownloader) (only : gset string)
    (fs : gset string) : state :=
  {| context :=
       {| current_image := None;
          processed_images := 0;
          transferred := 0;
          total_transferred := 0;
          total_images :=
            if bool_decide (only ≠ ∅) then size only else image_count self;
          current_image_url := None |};
     files := fs;
     calls := [] |}.

(** Every fetch in a record of calls comes right after the call of
    [on_start] for the same image. *)
Definition started_before (es : list event) : Prop :=
  ∀ k url outfile,
    es !! k = Some (urlretrieve_call url outfile) →
    ∃ k' c, k = S k' ∧ es !! k' = Some (on_start c) ∧
            current_image_url c = Some url ∧ current_image c = Some outfile.

(** ** Byte counts

    What [_urlretrieve_cb] adds up over the reports of a fetch: for each
    report, the block number times the block size. *)
Definition in_bytes (reports : list (Z * Z * Z)) : Z :=
  foldl (λ acc r, acc + r.1.1 * r.1.2)%Z 0%Z reports.

(** The calls of [on_progress] that the reports of a fetch lead to, from the
    context [c]: one for each report, with what was added up to there. *)
Definition progress_calls (c : dl_context) (reports : list (Z * Z * Z)) : list event :=
  (λ k, on_progress (add_transferred (in_bytes (take (S k) reports)) c))
    <$> seq 0 (List.length reports).

(** The reports [urlretrieve] of the standard library makes to its hook for
    a body read in [n] blocks: one before the first read and one after each
    block, each with the number of blocks read so far. *)
Definition block_reports (n : nat) (block_size total_size : Z) : list (Z * Z * Z) :=
  (λ k, (Z.of_nat k, block_size, total_size)) <$> seq 0 (S n).

(** * Properties *)

(** ** Text *)

Lemma partition_ok sep s a ok b :
  Py.partition sep s = (a, ok, b) → ok = "" ∨ ok = String sep "".
Proof.
  revert a ok b. induction s as [|c s IH]; intros a ok b; simpl.
  - intros [= <- <- <-]. by left.
  - destruct (decide (c = sep)).
    + intros [= <- <- <-]. by right.
    + destruct (Py.partition sep s) as [[a' ok'] b'].
      intros [= <- <- <-]. eauto.
Qed.

Lemma partition_before sep s a ok b :
  Py.partition sep s = (a, ok, b) → Py.occurs sep a = false.
Proof.
  revert a ok b. induction s as [|c s IH]; intros a ok b; simpl.
  - by intros [= <- <- <-].
  - destruct (decide (c = sep)).
    + by intros [= <- <- <-].
    + destruct (Py.partition sep s) as [[a' ok'] b'].
      intros [= <- <- <-]. simpl. rewrite (IH _ _ _ eq_refl).
      by rewrite bool_decide_eq_false_2.
Qed.

Lemma digit_bounds c d : Py.digit c = Some d → (0 ≤ d ≤ 9)%Z.
Proof.
  unfold Py.digit. destruct (_ && _)%N eqn:E; [|done].
  intros [= <-]. apply andb_true_iff in E as [E1 E2].
  apply N.leb_le in E1, E2. lia.
Qed.

Lemma int_digits_nonneg st acc s z :
  Py.int_digits st acc s = Some z → (0 ≤ acc)%Z → (0 ≤ z)%Z.
Proof.
  revert st acc. induction s as [|c s IH]; intros st acc; simpl.
  - destruct st; intros [= <-]; done.
  - destruct (Py.digit c) as [d|] eqn:Ed.
    + pose proof (digit_bounds _ _ Ed) as Hd.
      destruct st; try (intros H ?; apply (IH _ _ H); lia).
      destruct (Py.int_space c); [|done]. intros H ?. by apply (IH _ _ H).
    + destruct st; [|done|].
      * destruct (decide _); [intros H ?; by apply (IH _ _ H)|].
        destruct (Py.int_space c); [|done]. intros H ?. by apply (IH _ _ H).
      * destruct (Py.int_space c); [|done]. intros H ?. by apply (IH _ _ H).
Qed.

Lemma int_unsigned_nonneg s z : Py.int_unsigned s = Some z → (0 ≤ z)%Z.
Proof.
  destruct s as [|c s]; [done|]. simpl.
  destruct (Py.digit c) as [d|] eqn:Ed; [|done].
  intros H. apply (int_digits_nonneg _ _ _ _ H). apply digit_bounds in Ed. lia.
Qed.

Lemma occurs_lstrip c s : Py.occurs c s = false → Py.occurs c (Py.lstrip s) = false.
Proof.
  induction s as [|c' s IH]; [done|]. simpl.
  intros [? ?]%orb_false_iff. destruct (Py.int_space c'); [by apply IH|].
  simpl. by apply orb_false_iff.
Qed.

(** Text without a minus sign is never read as a negative number. *)
Lemma int_opt_nonneg s z :
  Py.occurs "-" s = false → Py.int_opt s = Some z → (0 ≤ z)%Z.
Proof.
  intros H%occurs_lstrip. unfold Py.int_opt.
  destruct (Py.lstrip s) as [|c s']; [done|].
  simpl in H. apply orb_false_iff in H as [Hc _].
  apply bool_decide_eq_false_1 in Hc.
  destruct (decide (c = "+"%char)); [apply int_unsigned_nonneg|].
  destruct (decide (c = "-"%char)); [done|apply int_unsigned_nonneg].
Qed.

Lemma length_append s t :
  String.length (s +:+ t) = String.length s + String.length t.
Proof. induction s as [|c s IH]; simpl; [done|]. by rewrite IH. Qed.

Lemma append_inj_tail s1 s2 t : s1 +:+ t = s2 +:+ t → s1 = s2.
Proof.
  revert s2. induction s1 as [|c s1 IH]; intros [|c' s2]; simpl; [done|..].
  - intros H%(f_equal String.length). rewrite ?length_append in H. simpl in H.
    rewrite ?length_append in H. lia.
  - intros H%(f_equal String.length). rewrite ?length_append in H. simpl in H.
    rewrite ?length_append in H. lia.
  - intros [= -> H]. by rewrite (IH _ H).
Qed.

(** Two images have the same URL only when they have the same name. *)
Lemma image_url_inj self i j : image_url self i = image_url self j → i = j.
Proof.
  unfold image_url. intros H.
  do 3 apply String.app_inj in H. by apply append_inj_tail in H.
Qed.

(** ** [RangeList] *)

Lemma read_term_nonneg text t z : read_term text = Some t → implied t z → (0 ≤ z)%Z.
Proof.
  unfold read_term. destruct (Py.partition "-" text) as [[a ok] b] eqn:Ep.
  apply partition_before in Ep.
  destruct (Py.int_opt a) as [n|] eqn:En; [|done]. simpl.
  apply int_opt_nonneg in En; [|done].
  destruct (decide (ok = "")).
  - intros [= <-]. simpl. lia.
  - destruct (Py.int_opt b) as [m|]; [|done]. simpl.
    destruct (decide (n < m)%Z); [|done]. intros [= <-]. simpl. lia.
Qed.

Lemma elem_of_range start stop z :
  z ∈ Py.range start stop ↔ (start ≤ z < stop)%Z.
Proof. unfold Py.range. rewrite elem_of_seqZ. lia. Qed.

(** What one turn of the loop does with a term, by what the term reads as. *)
Lemma RangeList_loop_cons i terms only :
  RangeList_loop (i :: terms) only =
    match Py.partition "-" i with
    | (a, ok, b) =>
        match Py.int_opt a with
        | None => Raise (ValueError (invalid_literal a))
        | Some n =>
            if decide (ok ≠ "") then
              match Py.int_opt b with
              | None => Raise (ValueError (invalid_literal b))
              | Some m =>
                  if (n >=? m)%Z then Raise (ValueError (invalid_range i n m))
                  else RangeList_loop terms (only ∪ list_to_set (Py.range n (m + 1)))
              end
            else RangeList_loop terms (only ∪ {[ n ]})
        end
    end.
Proof.
  simpl. destruct (Py.partition "-" i) as [[a ok] b]. unfold Py.int.
  destruct (Py.int_opt a) as [n|]; [|done]. simpl.
  destruct (decide (ok ≠ "")); [|done].
  by destruct (Py.int_opt b) as [m|].
Qed.

Lemma RangeList_loop_Ok terms only S :
  RangeList_loop terms only = Ok S →
  ∃ ts, Forall2 (λ text t, read_term text = Some t) terms ts ∧
        ∀ z, z ∈ S ↔ z ∈ only ∨ Exists (λ t, implied t z) ts.
Proof.
  revert only. induction terms as [|i terms IH]; intros only.
  - intros [= <-]. exists []. split; [constructor|].
    intros z. rewrite Exists_nil. tauto.
  - rewrite RangeList_loop_cons.
    destruct (Py.partition "-" i) as [[a ok] b] eqn:Ep.
    destruct (Py.int_opt a) as [n|] eqn:En; [|done].
    destruct (decide (ok ≠ "")) as [Hok|Hok].
    + destruct (Py.int_opt b) as [m|] eqn:Em; [|done].
      destruct (n >=? m)%Z eqn:Hnm; [done|].
      rewrite Z.geb_leb in Hnm. apply Z.leb_gt in Hnm.
      intros (ts & Hts & HS)%IH. exists (span n m :: ts). split.
      * constructor; [|done]. unfold read_term. rewrite Ep, En. simpl.
        rewrite decide_False by done. rewrite Em. simpl.
        by rewrite decide_True.
      * intros z. rewrite HS, Exists_cons, elem_of_union, elem_of_list_to_set,
          elem_of_range. simpl. intuition lia.
    + apply dec_stable in Hok.
      intros (ts & Hts & HS)%IH. exists (single n :: ts). split.
      * constructor; [|done]. unfold read_term. rewrite Ep, En. simpl.
        by rewrite decide_True.
      * intros z. rewrite HS, Exists_cons, elem_of_union, elem_of_singleton.
        simpl. tauto.
Qed.

Lemma RangeList_loop_raises terms only e :
  RangeList_loop terms only = Raise e → ∃ w, e = ValueError w.
Proof.
  revert only. induction terms as [|i terms IH]; intros only; [done|].
  rewrite RangeList_loop_cons.
  destruct (Py.partition "-" i) as [[a ok] b].
  destruct (Py.int_opt a) as [n|]; [|intros [= <-]; eauto].
  destruct (decide (ok ≠ "")); [|apply IH].
  destruct (Py.int_opt b) as [m|]; [|intros [= <-]; eauto].
  destruct (n >=? m)%Z; [intros [= <-]; eauto|apply IH].
Qed.

Lemma RangeList_loop_app pre rest only :
  RangeList_loop (pre ++ rest) only =
    match RangeList_loop pre only with
    | Ok only' => RangeList_loop rest only'
    | Raise e => Raise e
    end.
Proof.
  revert only. induction pre as [|i pre IH]; intros only; [done|].
  rewrite <- app_comm_cons, !RangeList_loop_cons.
  destruct (Py.partition "-" i) as [[a ok] b].
  destruct (Py.int_opt a) as [n|]; [|done].
  destruct (decide (ok ≠ "")); [|apply IH].
  destruct (Py.int_opt b) as [m|]; [|done].
  destruct (n >=? m)%Z; [done|apply IH].
Qed.

Lemma RangeList_loop_readable terms only :
  Forall (λ u, is_Some (read_term u)) terms → ∃ S, RangeList_loop terms only = Ok S.
Proof.
  intros H. revert only. induction H as [|i terms [t Ht] _ IH]; intros only.
  - by eexists.
  - rewrite RangeList_loop_cons. unfold read_term in Ht.
    destruct (Py.partition "-" i) as [[a ok] b].
    destruct (Py.int_opt a) as [n|]; [|done]. simpl in Ht.
    destruct (decide (ok = "")) as [->|Hok].
    + rewrite decide_False by (by intros []). apply IH.
    + rewrite decide_True by done.
      destruct (Py.int_opt b) as [m|]; [|done]. simpl in Ht.
      destruct (decide (n < m)%Z); [|done].
      replace (n >=? m)%Z with false; [apply IH|].
      symmetry. rewrite Z.geb_leb. apply Z.leb_gt. lia.
Qed.

Lemma RangeList_Ok s l :
  RangeList s = Ok l → ∃ S, RangeList_set s = Ok S ∧ l = elements S.
Proof.
  unfold RangeList. destruct (RangeList_set s) as [S|]; [|done].
  intros [= <-]. eauto.
Qed.

(** C3. Whenever [RangeList] accepts an expression, each of its
    comma-separated terms reads as a single number [N] or as a range [N-M],
    and the list built holds, each once, exactly the numbers of the union of
    the sets these terms stand for: [N] alone for [N], and [N], [N+1], ...,
    [M] for [N-M]. *)
Theorem RangeList_is_union_of_terms s l :
  RangeList s = Ok l →
  ∃ ts, Forall2 (λ text t, read_term text = Some t) (Py.split "," s) ts ∧
        NoDup l ∧
        ∀ z, z ∈ l ↔ Exists (λ t, implied t z) ts.
Proof.
  intros (S & HS & ->)%RangeList_Ok.
  apply RangeList_loop_Ok in HS as (ts & Hts & HS).
  exists ts. split; [done|]. split; [apply NoDup_elements|].
  intros z. rewrite elem_of_elements, HS. split; [|by right].
  by intros [[]%not_elem_of_empty|].
Qed.

Lemma RangeList_is_union_of_terms_example :
  RangeList_set "1-3,5,7,10-12" = Ok {[ 1; 2; 3; 5; 7; 10; 11; 12 ]}%Z ∧
  ∃ ts, Forall2 (λ text t, read_term text = Some t)
          (Py.split "," "1-3,5,7,10-12") ts ∧
        NoDup (elements ({[ 1; 2; 3; 5; 7; 10; 11; 12 ]}%Z : gset Z)) ∧
        ∀ z, z ∈ elements ({[ 1; 2; 3; 5; 7; 10; 11; 12 ]}%Z : gset Z)
             ↔ Exists (λ t, implied t z) ts.
Proof.
  split; [vm_compute; reflexivity|].
  apply (RangeList_is_union_of_terms "1-3,5,7,10-12").
  vm_compute; reflexivity.
Defined.

(** C8. A term [N-M] with [N >= M] makes [RangeList] fail with a
    [ValueError] and no list is built; when the terms before it are well
    formed, the error is the one of this term, and it names the term and the
    two bounds. *)
Theorem RangeList_rejects_unordered_range s (pre : list string) t post a b n m :
  Py.split "," s = (pre ++ t :: post)%list →
  Py.partition "-" t = (a, "-", b) →
  Py.int a = Ok n →
  Py.int b = Ok m →
  (n >= m)%Z →
  (∃ w, RangeList s = Raise (ValueError w)) ∧
  (Forall (λ u, is_Some (read_term u)) pre →
   RangeList s = Raise (ValueError (invalid_range t n m))).
Proof.
  intros Hs Hp Ha Hb Hnm. unfold RangeList, RangeList_set. rewrite Hs.
  assert (∀ only, RangeList_loop (t :: post) only
                  = Raise (ValueError (invalid_range t n m))) as Ht.
  { intros only. rewrite RangeList_loop_cons, Hp.
    unfold Py.int in Ha, Hb.
    destruct (Py.int_opt a) as [n'|]; [|done]. injection Ha as ->.
    destruct (Py.int_opt b) as [m'|]; [|done]. injection Hb as ->.
    rewrite decide_True by done.
    replace (n >=? m)%Z with true; [done|].
    symmetry. rewrite Z.geb_leb. apply Z.leb_le. lia. }
  rewrite RangeList_loop_app. split.
  - destruct (RangeList_loop pre ∅) as [only'|e] eqn:Hpre.
    + rewrite Ht. eauto.
    + apply RangeList_loop_raises in Hpre as [w ->]. eauto.
  - intros Hpre. apply (RangeList_loop_readable _ ∅) in Hpre as [only' ->].
    by rewrite Ht.
Qed.

Lemma RangeList_rejects_unordered_range_examples :
  RangeList "5-5" = Raise (ValueError (invalid_range "5-5" 5 5)) ∧
  RangeList "5-3" = Raise (ValueError (invalid_range "5-3" 5 3)) ∧
  RangeList "1,5-3,x" = Raise (ValueError (invalid_range "5-3" 5 3)).
Proof.
  split; [|split].
  - apply (RangeList_rejects_unordered_range "5-5" [] "5-5" [] "5" "5" 5 5);
      [reflexivity..|lia|constructor].
  - apply (RangeList_rejects_unordered_range "5-3" [] "5-3" [] "5" "3" 5 3);
      [reflexivity..|lia|constructor].
  - apply (RangeList_rejects_unordered_range "1,5-3,x" ["1"] "5-3" ["x"] "5" "3" 5 3);
      [reflexivity..|lia|].
    constructor; [|constructor]. vm_compute. eauto.
Defined.

(** C9, as the code has it. Every list [RangeList] builds holds distinct
    integers that are zero or more: no negative number can be selected, but
    zero can. *)
Theorem RangeList_distinct_nonnegative s l :
  RangeList s = Ok l → NoDup l ∧ Forall (λ z, 0 ≤ z)%Z l.
Proof.
  intros (S & HS & ->)%RangeList_Ok.
  apply RangeList_loop_Ok in HS as (ts & Hts & HS).
  split; [apply NoDup_elements|]. apply Forall_forall. intros z Hz.
  apply elem_of_elements, HS in Hz as [[]%not_elem_of_empty|Hz].
  apply Exists_exists in Hz as (t & Ht & Hz).
  apply list_elem_of_lookup in Ht as [k Hk].
  destruct (Forall2_lookup_r _ _ _ _ _ Hts Hk) as (text & _ & Htext).
  by apply (read_term_nonneg _ _ _ Htext).
Qed.

Lemma RangeList_distinct_nonnegative_example :
  ∃ l, RangeList "0-2" = Ok l ∧ NoDup l ∧ Forall (λ z, 0 ≤ z)%Z l.
Proof.
  eexists. split; [vm_compute; reflexivity|].
  apply (RangeList_distinct_nonnegative "0-2"). vm_compute. reflexivity.
Defined.

(** C9, as the specification has it, fails: the expression [0] is accepted
    and selects zero, which is not a position counted from one. *)
Lemma RangeList_accepts_zero :
  RangeList "0" = Ok [0%Z] ∧ ¬ Forall (λ z, 1 ≤ z)%Z [0%Z].
Proof.
  split; [reflexivity|]. intros H. apply Forall_cons in H as [H _]. lia.
Qed.


(** ** The index page *)

Lemma match_starts_shift p from s :
  Re.match_starts p from s = (λ k, from + k) <$> Re.match_starts p 0 s.
Proof.
  revert from. induction s as [|c s IH]; intros from; simpl.
  - destruct (Re.match_at p "" ""); simpl; [|done]. f_equal. lia.
  - rewrite fmap_app, (IH (S from)), (IH 1), <- list_fmap_compose.
    f_equal.
    + destruct (Re.match_at p (String c s) ""); simpl; [|done]. f_equal. lia.
    + apply list_fmap_ext. intros _ k _. simpl. lia.
Qed.

(** [search] finds nothing exactly when the pattern matches nowhere. *)
Lemma search_None p s : Re.search p s = None ↔ Re.match_starts p 0 s = [].
Proof.
  induction s as [|c s IH]; simpl.
  - destruct (Re.match_at p "" ""); simpl; split; done.
  - destruct (Re.match_at p (String c s) ""); simpl; [split; done|].
    rewrite IH, (match_starts_shift p 1). split; [by intros ->|].
    by intros ?%fmap_nil_inv.
Qed.

(** [search] gives the group of the match that starts first. *)
Lemma search_leftmost p s : Re.search p s = Re.leftmost_group p s.
Proof.
  unfold Re.leftmost_group. induction s as [|c s IH]; simpl.
  - by destruct (Re.match_at p "" "") eqn:E; simpl; rewrite ?E.
  - destruct (Re.match_at p (String c s) "") eqn:E; simpl; [by rewrite E|].
    rewrite IH, (match_starts_shift p 1).
    by destruct (Re.match_starts p 0 s).
Qed.

(** C5, as the code has it. [parse_album_page] looks for each of the three
    patterns, in the order [image_list], [iiif], [title]; a pattern has to
    match at least once, and of several matches the one that starts first is
    read.  The first pattern that matches nowhere makes the call raise
    [ParseError] with the name of that pattern, and nothing is returned; when
    all three match, the dictionary returned holds, under the three names, the
    groups of these first matches and nothing else. *)
Theorem parse_album_page_rules page :
  (Re.match_starts image_list_pattern 0 page = [] →
   parse_album_page page = Raise (ParseError "image_list not found")) ∧
  (Re.match_starts image_list_pattern 0 page ≠ [] →
   Re.match_starts iiif_pattern 0 page = [] →
   parse_album_page page = Raise (ParseError "iiif not found")) ∧
  (Re.match_starts image_list_pattern 0 page ≠ [] →
   Re.match_starts iiif_pattern 0 page ≠ [] →
   Re.match_starts title_pattern 0 page = [] →
   parse_album_page page = Raise (ParseError "title not found")) ∧
  (Re.match_starts image_list_pattern 0 page ≠ [] →
   Re.match_starts iiif_pattern 0 page ≠ [] →
   Re.match_starts title_pattern 0 page ≠ [] →
   ∃ a b c,
     Re.leftmost_group image_list_pattern page = Some a ∧
     Re.leftmost_group iiif_pattern page = Some b ∧
     Re.leftmost_group title_pattern page = Some c ∧
     parse_album_page page
     = Ok (<["title" := c]> (<["iiif" := b]> (<["image_list" := a]> ∅)))).
Proof.
  rewrite <- !search_None, <- !search_leftmost.
  unfold parse_album_page. simpl.
  destruct (Re.search image_list_pattern page) as [a|];
    destruct (Re.search iiif_pattern page) as [b|];
    destruct (Re.search title_pattern page) as [c|];
    repeat split; try done; intros; eauto 10.
Qed.

Lemma parse_album_page_rules_example :
  parse_album_page example_page
  = Ok (<["title" := "Recueil / planches "]>
          (<["iiif" := "/3f/0a-1"]>
             (<["image_list" := "['a_1', 'b_2', 'c_3']"]> ∅))) ∧
  parse_album_page "<title>t</title> var images = ['a_1'];"
  = Raise (ParseError "iiif not found").
Proof.
  split.
  - destruct (parse_album_page_rules example_page) as (_ & _ & _ & H).
    destruct H as (a & b & c & Ha & Hb & Hc & ->);
      [vm_compute; discriminate..|].
    vm_compute in Ha, Hb, Hc. by injection Ha as <-; injection Hb as <-; injection Hc as <-.
  - destruct (parse_album_page_rules "<title>t</title> var images = ['a_1'];")
      as (_ & H & _).
    apply H; [vm_compute; discriminate|vm_compute; reflexivity].
Defined.

(** C5, as the specification has it, fails: a pattern need not match exactly
    once.  On this page the [title] pattern matches twice, at two places that
    do not overlap, and the page is parsed all the same, with the first
    title. *)
Lemma parse_album_page_accepts_two_titles :
  Re.match_starts title_pattern 0 two_titles_page = [0; 21] ∧
  parse_album_page two_titles_page
  = Ok (<["title" := "first"]>
          (<["iiif" := "/3f"]> (<["image_list" := "['a_1']"]> ∅))).
Proof. split; vm_compute; reflexivity. Qed.

Lemma parsed_lookups (a b c : string) :
  let parsed : gmap string string :=
    <["title" := c]> (<["iiif" := b]> (<["image_list" := a]> ∅)) in
  parsed !! "image_list" = Some a ∧
  parsed !! "iiif" = Some b ∧
  parsed !! "title" = Some c.
Proof. cbv zeta. repeat split; by simplify_map_eq. Qed.

(** C6, as the code has it. When the three patterns match and the decoder
    raises on the text of the image list, [__init__] fails with the exception
    the decoder raised, as it is, which is not a [ParseError].  On a page that
    was fetched, [__init__] raises a [ParseError] only when one of the
    patterns matches nowhere in the page, and the error names that pattern. *)
Theorem init_decoding_error urlopen_read literal_eval album_url page :
  urlopen_read album_url = Ok page →
  (∀ parsed text e,
     parse_album_page page = Ok parsed →
     parsed !! "image_list" = Some text →
     literal_eval text = inl e →
     init urlopen_read literal_eval album_url = Raise (LiteralError e) ∧
     is_ParseError (LiteralError e) = false) ∧
  (∀ msg,
     init urlopen_read literal_eval album_url = Raise (ParseError msg) →
     ∃ name pattern,
       (name, pattern) ∈ PATTERNS ∧
       Re.match_starts pattern 0 page = [] ∧
       msg = name +:+ " not found").
Proof.
  intros Hopen. split.
  - intros parsed text e Hparse Htext He. split; [|done].
    unfold init. rewrite Hopen. simpl. rewrite Hparse. simpl.
    unfold getitem. rewrite Htext. simpl. by rewrite He.
  - intros msg. unfold init. rewrite Hopen. simpl.
    unfold parse_album_page, PATTERNS. simpl.
    destruct (Re.search image_list_pattern page) as [a|] eqn:Ha; simpl;
      [|intros [= <-]; eexists _, _; split_and!;
        [apply list_elem_of_here|by apply search_None|done]].
    destruct (Re.search iiif_pattern page) as [b|] eqn:Hb; simpl;
      [|intros [= <-]; eexists _, _; split_and!;
        [apply list_elem_of_further, list_elem_of_here|by apply search_None|done]].
    destruct (Re.search title_pattern page) as [c|] eqn:Hc; simpl;
      [|intros [= <-]; eexists _, _; split_and!;
        [do 2 apply list_elem_of_further; apply list_elem_of_here
        |by apply search_None|done]].
    destruct (parsed_lookups a b c) as (Hla & Hlb & Hlc).
    unfold getitem. rewrite Hla, Hlb, Hlc. simpl.
    by destruct (literal_eval a).
Qed.

Lemma init_decoding_error_example :
  example_urlopen "https://bibliotheque-numerique.inha.fr/viewer/2" = Ok cut_list_page ∧
  init example_urlopen literal_strings
    "https://bibliotheque-numerique.inha.fr/viewer/2"
  = Raise (LiteralError literal_SyntaxError) ∧
  is_ParseError (LiteralError literal_SyntaxError) = false.
Proof.
  split; [reflexivity|].
  destruct (init_decoding_error example_urlopen literal_strings
              "https://bibliotheque-numerique.inha.fr/viewer/2" cut_list_page)
    as [Hraise _]; [reflexivity|].
  eapply (Hraise _ "['a_1', 'b_2'").
  - vm_compute. reflexivity.
  - vm_compute. reflexivity.
  - reflexivity.
Defined.

(** C6, as the specification has it, fails: on this page the three patterns
    match, the text of the image list is cut short, and the construction
    raises a [SyntaxError], not a [ParseError]. *)
Lemma init_raises_syntax_error :
  (∃ parsed, parse_album_page cut_list_page = Ok parsed ∧
             parsed !! "image_list" = Some "['a_1', 'b_2'") ∧
  literal_strings "['a_1', 'b_2'" = inl literal_SyntaxError ∧
  ∃ e, init example_urlopen literal_strings
         "https://bibliotheque-numerique.inha.fr/viewer/2" = Raise e ∧
       is_ParseError e = false.
Proof.
  split; [|split].
  - eexists. split; vm_compute; reflexivity.
  - reflexivity.
  - eexists. split; vm_compute; reflexivity.
Qed.

(** ** The download *)

Lemma state_eta st :
  {| context := context st; files := files st; calls := calls st |} = st.
Proof. by destruct st. Qed.

Lemma same_image_refl c : same_image c c.
Proof. by repeat split. Qed.

Lemma same_image_add_transferred n c c0 :
  same_image c c0 → same_image (add_transferred n c) c0.
Proof. by intros (? & ? & ? & ?). Qed.

(** The report hook changes the byte counts and calls [on_progress]; it
    leaves the disk alone. *)
Lemma progress_fold st rs :
  ∃ c1 es,
    foldl urlretrieve_cb st rs
    = {| context := c1; files := files st; calls := (calls st ++ es)%list |} ∧
    same_image c1 (context st) ∧ progress_of (context st) es.
Proof.
  revert st. induction rs as [|[[blocks block_size] total] rs IH]; intros st.
  - exists (context st), []. simpl. rewrite app_nil_r, state_eta.
    split; [done|]. split; [apply same_image_refl|constructor].
  - destruct (IH (urlretrieve_cb st (blocks, block_size, total)))
      as (c1 & es & Heq & Hc1 & Hes).
    cbn [foldl]. rewrite Heq. clear Heq. simpl in *.
    exists c1, (on_progress (add_transferred (blocks * block_size) (context st)) :: es).
    split; [by rewrite <- app_assoc|].
    assert (∀ c, same_image c (add_transferred (blocks * block_size) (context st))
                 → same_image c (context st)) as Hsame.
    { intros c (? & ? & ? & ?). by repeat split. }
    split; [by apply Hsame|]. constructor.
    + eexists. split; [done|]. apply same_image_add_transferred, same_image_refl.
    + eapply Forall_impl; [exact Hes|]. intros e (c & -> & Hc). eauto.
Qed.

Section Turns.

Variable joinpath : string → string → string.
Variable urlretrieve : string → string → fetch.
Variable self : INHAAlbumDownloader.
Variable outdir : string.
Variable only : gset string.

Abbreviation body := (dowload_body joinpath urlretrieve self outdir only).
Abbreviation loop := (dowload_loop joinpath urlretrieve self outdir only).
Abbreviation turn_of := (turn joinpath urlretrieve self outdir only).

(** Whatever the function does in a turn, the relation allows. *)
Lemma dowload_body_inv i st st' ctl :
  body i st = (st', ctl) → turn_of i st st' ctl.
Proof.
  unfold dowload_body.
  destruct (Py.rsplit1 "_" i) as [|name [|num [|x l]]] eqn:Hr;
    try (intros [= <- <-]; apply turn_malformed; intros ???; congruence).
  set (outfile := joinpath outdir (num +:+ ".jpg")).
  set (url := image_url self i).
  destruct (bool_decide (only ≠ ∅) && bool_decide (i ∉ only)) eqn:Hsel.
  { apply andb_true_iff in Hsel as [H1%bool_decide_eq_true_1 H2%bool_decide_eq_true_1].
    intros [= <- <-]. eapply turn_filtered; [done|]. by intros [|]. }
  assert (is_selected only i) as Hselected.
  { apply andb_false_iff in Hsel as [H%bool_decide_eq_false_1|H%bool_decide_eq_false_1].
    - left. by apply dec_stable.
    - right. by apply dec_stable. }
  destruct (bool_decide (outfile ∈ files _)) eqn:Hex.
  { apply bool_decide_eq_true_1 in Hex. change (outfile ∈ files st) in Hex.
    intros [= <- <-]. unfold call, with_context. simpl.
    rewrite <- !app_assoc. by eapply turn_skipped. }
  apply bool_decide_eq_false_1 in Hex. change (outfile ∉ files st) in Hex.
  match goal with |- context [foldl urlretrieve_cb ?X ?rs] =>
    destruct (progress_fold X rs) as (c1 & es & -> & Hc1 & Hes) end.
  unfold call, with_context, with_files in *.
  cbn [context files calls] in Hc1, Hes |- *.
  destruct (fetch_ending (urlretrieve url outfile)) as [|created|created] eqn:Hend.
  - intros [= <- <-]. rewrite <- !app_assoc. simpl. by eapply turn_fetched.
  - assert (((files st ∪ {[outfile]}) ∖ {[outfile]} : gset string) = files st)
      as Hfs by set_solver.
    destruct created; simpl.
    + rewrite bool_decide_eq_true_2 by set_solver. simpl. intros [= <- <-].
      rewrite Hfs, <- !app_assoc. simpl. by eapply turn_interrupted.
    + rewrite bool_decide_eq_false_2 by done. simpl. intros [= <- <-].
      rewrite <- !app_assoc. simpl. by eapply turn_interrupted.
  - destruct created; simpl; intros [= <- <-]; rewrite <- !app_assoc; simpl.
    + by eapply (turn_failed _ _ _ _ _ _ _ _ _ _ _ _ true).
    + by eapply (turn_failed _ _ _ _ _ _ _ _ _ _ _ _ false).
Qed.

Ltac same_suffix :=
  repeat match goal with
  | H1 : Py.rsplit1 "_" ?i = [_; ?b], H2 : Py.rsplit1 "_" ?i = [_; ?d] |- _ =>
      assert_fails (constr_eq b d); assert (b = d) as -> by congruence
  end.

Ltac turn_cases H :=
  inversion H; subst; same_suffix; try done; try congruence;
  try match goal with
  | Hno : ∀ name num, Py.rsplit1 "_" ?i ≠ [name; num],
    Hr : Py.rsplit1 "_" ?i = [_; _] |- _ => by destruct (Hno _ _ Hr)
  end.

(** When the output file is there, the turn is a skip: one more image
    processed, the two callbacks, no fetch, and on to the next image. *)
Lemma dowload_body_skips i st name num :
  Py.rsplit1 "_" i = [name; num] →
  is_selected only i →
  joinpath outdir (num +:+ ".jpg") ∈ files st →
  body i st =
    (let c0 := update_current (joinpath outdir (num +:+ ".jpg"))
                 (image_url self i) (context st) in
     {| context := add_processed c0;
        files := files st;
        calls := calls st ++ [on_start c0; on_completion (add_processed c0) true false] |},
     continue).
Proof.
  intros Hr Hsel Hex. destruct (body i st) as [st' ctl] eqn:Hb.
  apply dowload_body_inv in Hb. turn_cases Hb.
Qed.

(** When the image is not asked for, the turn only notes the image in the
    context. *)
Lemma dowload_body_filters i st name num :
  Py.rsplit1 "_" i = [name; num] →
  ¬ is_selected only i →
  body i st =
    ({| context := update_current (joinpath outdir (num +:+ ".jpg"))
                     (image_url self i) (context st);
        files := files st;
        calls := calls st |},
     continue).
Proof.
  intros Hr Hsel. destruct (body i st) as [st' ctl] eqn:Hb.
  apply dowload_body_inv in Hb. turn_cases Hb.
Qed.

(** When the fetch is interrupted, the turn ends the loop; the disk is as it
    was before the turn. *)
Lemma dowload_body_interrupted i st name num file_created :
  Py.rsplit1 "_" i = [name; num] →
  is_selected only i →
  joinpath outdir (num +:+ ".jpg") ∉ files st →
  fetch_ending (urlretrieve (image_url self i) (joinpath outdir (num +:+ ".jpg")))
  = interrupted file_created →
  ∃ c1 es,
    let c0 := update_current (joinpath outdir (num +:+ ".jpg"))
                (image_url self i) (context st) in
    body i st =
      ({| context := c1;
          files := files st;
          calls := calls st
                   ++ [on_start c0;
                       urlretrieve_call (image_url self i)
                         (joinpath outdir (num +:+ ".jpg"))]
                   ++ es ++ [on_completion c1 false true] |},
       break) ∧
    same_image c1 c0 ∧ progress_of c0 es.
Proof.
  intros Hr Hsel Hex Hend. destruct (body i st) as [st' ctl] eqn:Hb.
  apply dowload_body_inv in Hb. turn_cases Hb. by eexists _, _.
Qed.

Lemma dowload_loop_app (pre rest : list string) st :
  loop (pre ++ rest)%list st =
    match loop pre st with
    | (st1, finished) => loop rest st1
    | r => r
    end.
Proof.
  revert st. induction pre as [|i pre IH]; intros st; [done|]. simpl.
  destruct (body i st) as [st1 [| |e]]; [apply IH|done..].
Qed.

Lemma progress_of_silent c0 es :
  progress_of c0 es → starts es = [] ∧ fetches es = [] ∧ completions es = [].
Proof.
  induction 1 as [|e es (c & -> & _) _ IH]; [done|].
  unfold starts, fetches, completions in *. simpl. tauto.
Qed.

(** A loop that runs out of images with no filter set leaves the output file
    of every image on the disk, and takes nothing away. *)
Lemma dowload_loop_finished_files names st st' :
  only = ∅ →
  loop names st = (st', finished) →
  files st ⊆ files st' ∧
  Forall (λ i, ∃ name num, Py.rsplit1 "_" i = [name; num] ∧
                           joinpath outdir (num +:+ ".jpg") ∈ files st') names.
Proof.
  intros Honly. revert st. induction names as [|i names IH]; intros st; simpl.
  - intros [= <-]. by split.
  - destruct (body i st) as [st1 [| |e]] eqn:Hb; [|done..].
    intros [Hsub Hall]%IH. apply dowload_body_inv in Hb.
    assert (files st ⊆ files st1 ∧
            ∃ name num, Py.rsplit1 "_" i = [name; num] ∧
                        joinpath outdir (num +:+ ".jpg") ∈ files st1) as [Hst Hi].
    { turn_cases Hb; simpl;
        try (exfalso; match goal with
                      | Hn : ¬ is_selected _ _ |- _ => apply Hn; by left
                      end).
      - split; [done|]. eauto.
      - split; [set_solver|]. eexists _, _. split; [done|]. set_solver. }
    split; [set_solver|]. constructor; [|done].
    destruct Hi as (name & num & Hr & Hin). eexists _, _. split; [done|]. set_solver.
Qed.

(** A loop over images whose output files are all there skips every one of
    them and fetches nothing. *)
Lemma dowload_loop_all_skipped names st :
  Forall (λ i, is_selected only i ∧
               ∃ name num, Py.rsplit1 "_" i = [name; num] ∧
                           joinpath outdir (num +:+ ".jpg") ∈ files st) names →
  ∃ st', loop names st = (st', finished) ∧
         files st' = files st ∧
         fetches (calls st') = fetches (calls st) ∧
         starts (calls st') = (starts (calls st) ++ (image_url self <$> names))%list ∧
         completions (calls st')
         = (completions (calls st)
            ++ ((λ i, (Some (image_url self i), true, false)) <$> names))%list.
Proof.
  revert st. induction names as [|i names IH]; intros st Hall.
  - exists st. by rewrite !app_nil_r.
  - apply Forall_cons in Hall as [(Hsel & name & num & Hr & Hin) Hall].
    simpl. rewrite (dowload_body_skips _ _ _ _ Hr Hsel Hin). cbv zeta.
    edestruct IH as (st' & -> & Hfiles & Hfetches & Hstarts & Hdone); [exact Hall|].
    exists st'. split; [done|]. simpl in *.
    rewrite Hfiles, Hfetches, Hstarts, Hdone.
    unfold fetches, starts, completions. rewrite !omap_app. simpl.
    rewrite app_nil_r, <- !app_assoc. done.
Qed.

(** In such a loop the completions report the counts that follow the count
    the loop began with, one by one. *)
Lemma dowload_loop_all_skipped_counts names st :
  Forall (λ i, is_selected only i ∧
               ∃ name num, Py.rsplit1 "_" i = [name; num] ∧
                           joinpath outdir (num +:+ ".jpg") ∈ files st) names →
  completed_counts (calls ((loop names st).1))
  = (completed_counts (calls st)
     ++ seq (S (processed_images (context st))) (List.length names))%list.
Proof.
  revert st. induction names as [|i names IH]; intros st Hall.
  - simpl. by rewrite app_nil_r.
  - apply Forall_cons in Hall as [(Hsel & name & num & Hr & Hin) Hall].
    simpl. rewrite (dowload_body_skips _ _ _ _ Hr Hsel Hin). cbv zeta.
    rewrite IH by exact Hall. cbn [context calls add_processed processed_images
                                     update_current].
    unfold completed_counts. rewrite omap_app. simpl.
    by rewrite <- app_assoc, Nat.add_1_r.
Qed.

Lemma progress_of_events c0 es :
  progress_of c0 es →
  Forall (λ e, event_url e = current_image_url c0 ∧
               ∀ c, event_context e = Some c →
                    total_images c = total_images c0 ∧
                    processed_images c = processed_images c0) es.
Proof.
  intros H. eapply Forall_impl; [exact H|]. simpl.
  intros e (c & -> & _ & Hp & Ht & Hu). simpl. split; [done|].
  by intros c' [= <-].
Qed.

Ltac event_fact :=
  simpl; split; [done|];
  first [ by intros ? [=]
        | intros ? [= <-]; simpl in *; split; [congruence|lia] ].

Ltac events_fact Hes :=
  repeat first
    [ apply Forall_nil_2
    | apply Forall_cons_2; [event_fact|]
    | apply Forall_app_2;
      [ eapply Forall_impl; [exact Hes|];
        let He := fresh "He" in let Hc := fresh "Hc" in
        intros ? [? He]; split; [congruence|];
        intros ? Hc; destruct (He _ Hc); split; [congruence|lia]
      | ] ].

(** What a turn adds to the record of calls: calls about its image only,
    none unless the image is asked for, with the total unchanged and the
    count of processed images raised by one at most. *)
Lemma turn_calls i st st' ctl :
  turn_of i st st' ctl →
  total_images (context st') = total_images (context st) ∧
  (processed_images (context st) ≤ processed_images (context st'))%nat ∧
  (processed_images (context st')
   ≤ processed_images (context st) + (if decide (is_selected only i) then 1 else 0))%nat ∧
  ∃ es, calls st' = (calls st ++ es)%list ∧
        (es ≠ [] → is_selected only i) ∧
        Forall (λ e, event_url e = Some (image_url self i) ∧
                     ∀ c, event_context e = Some c →
                          total_images c = total_images (context st) ∧
                          (processed_images c ≤ processed_images (context st'))%nat) es.
Proof.
  intros H. inversion H as
    [ | name num Hr Hsel | name num c0 Hr Hsel Hc0 Hex
    | name num c0 c1 es Hr Hsel Hc0 Hex Hend Hc1 Hes
    | name num c0 c1 es created Hr Hsel Hc0 Hex Hend Hc1 Hes
    | name num c0 c1 es created Hr Hsel Hc0 Hex Hend Hc1 Hes ]; subst; simpl;
    try rewrite (decide_True (P := is_selected only i)) by done;
    try (destruct Hc1 as (Hc1a & Hc1b & Hc1c & Hc1d); simpl in *;
         apply progress_of_events in Hes; simpl in Hes;
         rewrite ?Hc1b, ?Hc1c);
    (split; [done|]); (split; [lia|]); (split; [lia|]).
  - exists []. rewrite app_nil_r. repeat split; [done|constructor].
  - exists []. rewrite app_nil_r. repeat split; [done|constructor].
  - eexists. split; [done|]. split; [done|]. events_fact Hsel.
  - eexists. split; [done|]. split; [done|]. events_fact Hes.
  - eexists. split; [done|]. split; [done|]. events_fact Hes.
  - eexists. split; [done|]. split; [done|].
    eapply (Forall_app_2 _ [_; _]); [events_fact Hes|].
    rewrite <- (app_nil_r es). events_fact Hes.
Qed.

(** The same for a whole loop: the calls are about images of the album that
    are asked for, and the count of processed images never passes the number
    of such images. *)
Lemma dowload_loop_calls names st st' e :
  loop names st = (st', e) →
  total_images (context st') = total_images (context st) ∧
  (processed_images (context st')
   ≤ processed_images (context st) + List.length (filter (is_selected only) names))%nat ∧
  ∃ es, calls st' = (calls st ++ es)%list ∧
        ∀ ev, ev ∈ es →
          (∃ i, i ∈ names ∧ is_selected only i ∧
                event_url ev = Some (image_url self i)) ∧
          ∀ c, event_context ev = Some c →
               total_images c = total_images (context st) ∧
               (processed_images c
                ≤ processed_images (context st)
                  + List.length (filter (is_selected only) names))%nat.
Proof.
  revert st. induction names as [|i names IH]; intros st; simpl.
  { intros [= <- <-]. split; [done|]. split; [lia|]. exists [].
    rewrite app_nil_r. split; [done|]. by intros ev ?%elem_of_nil. }
  destruct (body i st) as [st1 ctl] eqn:Hb.
  apply dowload_body_inv, turn_calls in Hb
    as (Ht & Hp1 & Hp2 & es1 & Hc & Hsel & Hes1).
  rewrite Forall_forall in Hes1.
  assert (List.length (filter (is_selected only) (i :: names))
          = ((if decide (is_selected only i) then 1 else 0)
             + List.length (filter (is_selected only) names))%nat) as Hlen.
  { rewrite filter_cons. by destruct (decide (is_selected only i)). }
  assert (∀ ev, ev ∈ es1 →
    (∃ j, j ∈ i :: names ∧ is_selected only j ∧
          event_url ev = Some (image_url self j)) ∧
    ∀ c, event_context ev = Some c →
         total_images c = total_images (context st) ∧
         (processed_images c
          ≤ processed_images (context st)
            + List.length (filter (is_selected only) (i :: names)))%nat) as Hes1'.
  { intros ev Hev. destruct (Hes1 _ Hev) as [Hu Hctx]. split.
    - exists i. split; [left|]. split; [|done].
      apply Hsel. intros ->. by apply elem_of_nil in Hev.
    - intros c Hcx. destruct (Hctx _ Hcx). split; [done|]. lia. }
  destruct ctl as [| |e'].
  - intros (Ht' & Hp' & es2 & Hc' & Hes2)%IH.
    split; [congruence|]. split; [lia|].
    exists (es1 ++ es2)%list. split; [by rewrite Hc', Hc, app_assoc|].
    intros ev [Hev|Hev]%elem_of_app; [by apply Hes1'|].
    destruct (Hes2 _ Hev) as [(j & Hj & Hjs & Hu) Hctx]. split.
    + exists j. split; [by right|done].
    + intros c Hcx. destruct (Hctx _ Hcx). split; [congruence|]. lia.
  - intros [= <- <-]. split; [done|]. split; [lia|]. by exists es1.
  - intros [= <- <-]. split; [done|]. split; [lia|]. by exists es1.
Qed.


(** C1. When the fetch of an image is interrupted, whether or not the output
    file had been created by then, the loop ends at once: the disk is as it
    was when the image was reached, so the output file of the image is not
    there; the last call made is [on_completion] with [cancelled] set, for
    that image and with the count of processed images unchanged; and the
    images after it are never looked at. *)
Theorem interrupted_fetch_ends_run (pre post : list string) i st st1 name num file_created :
  loop pre st = (st1, finished) →
  Py.rsplit1 "_" i = [name; num] →
  is_selected only i →
  joinpath outdir (num +:+ ".jpg") ∉ files st1 →
  fetch_ending (urlretrieve (image_url self i) (joinpath outdir (num +:+ ".jpg")))
  = interrupted file_created →
  ∃ st2 c es,
    let outfile := joinpath outdir (num +:+ ".jpg") in
    let c0 := update_current outfile (image_url self i) (context st1) in
    loop (pre ++ i :: post)%list st = (st2, stopped) ∧
    files st2 = files st1 ∧
    (outfile ∉ files st2) ∧
    calls st2 = (calls st1
                 ++ [on_start c0; urlretrieve_call (image_url self i) outfile]
                 ++ es ++ [on_completion c false true])%list ∧
    progress_of c0 es ∧
    current_image c = Some outfile ∧
    current_image_url c = Some (image_url self i) ∧
    processed_images c = processed_images (context st1).
Proof.
  intros Hpre Hr Hsel Hex Hend.
  destruct (dowload_body_interrupted _ _ _ _ _ Hr Hsel Hex Hend)
    as (c1 & es & Hb & (Hc1 & Hc2 & _ & Hc4) & Hes).
  eexists _, c1, es. cbv zeta in *.
  rewrite dowload_loop_app, Hpre. simpl. rewrite Hb. simpl.
  repeat split; done.
Qed.

(** C4. With a filter that is not empty, a turn for an image outside the
    filter makes no call, leaves the disk and the count of processed images
    as they are, and goes on to the next image; and in a whole loop no call
    is about such an image, while the count of processed images never passes
    the number of images of the album that are in the filter. *)
Theorem unselected_image_is_invisible :
  only ≠ ∅ →
  (∀ i st, i ∉ only →
     calls ((body i st).1) = calls st ∧
     files ((body i st).1) = files st ∧
     processed_images (context ((body i st).1)) = processed_images (context st) ∧
     ∀ name num, Py.rsplit1 "_" i = [name; num] → (body i st).2 = continue) ∧
  (∀ names st st' e, loop names st = (st', e) →
     ∃ es, calls st' = (calls st ++ es)%list ∧
       (∀ j ev, j ∉ only → ev ∈ es → event_url ev ≠ Some (image_url self j)) ∧
       (∀ ev c, ev ∈ es → event_context ev = Some c →
          (processed_images c
           ≤ processed_images (context st)
             + List.length (filter (λ i, i ∈ only) names))%nat)).
Proof.
  intros Honly.
  assert (∀ i, is_selected only i ↔ i ∈ only) as Hsel.
  { intros i. split; [by intros [|]|by right]. }
  split.
  - intros i st Hi. destruct (body i st) as [st' ctl] eqn:Hb.
    apply dowload_body_inv in Hb.
    inversion Hb; subst; simpl; try (by exfalso; apply Hi, Hsel).
    + repeat split; try done. intros name num Hr. by destruct (H _ _ Hr).
    + done.
  - intros names st st' e (_ & _ & es & Hc & Hes)%dowload_loop_calls.
    exists es. split; [done|]. split.
    + intros j ev Hj Hev Hu.
      destruct (Hes _ Hev) as [(i & _ & Hi%Hsel & Hu') _].
      rewrite Hu in Hu'. apply (inj Some), image_url_inj in Hu' as ->. done.
    + intros ev c Hev Hcx. destruct (Hes _ Hev) as [_ Hctx].
      destruct (Hctx _ Hcx) as [_ Hp].
      by rewrite (list_filter_iff _ _ _ Hsel) in Hp.
Qed.

End Turns.

Lemma filter_selected_empty (names : list string) :
  filter (is_selected ∅) names = names.
Proof.
  induction names as [|i names IH]; [done|].
  rewrite filter_cons, decide_True by (by left). by rewrite IH.
Qed.

(** C10. Called with no filter at all, [dowload] fails on the spot, on the
    precondition: no directory is made, no callback is called and nothing is
    fetched; so a call that ends well was given a set. *)
Theorem dowload_without_filter_fails Path joinpath urlretrieve mkdir_ok self directory fs :
  dowload Path joinpath urlretrieve mkdir_ok self directory None fs
  = {| files_after := fs; calls_made := []; ending := raised AttributeError |} ∧
  ∀ only,
    ending (dowload Path joinpath urlretrieve mkdir_ok self directory only fs)
    = finished →
    ∃ names, only = Some names.
Proof.
  split; [done|]. intros [names|]; [eauto|done].
Qed.

Lemma dowload_without_filter_fails_example :
  ∃ names : gset string, Some (∅ : gset string) = Some names.
Proof.
  apply (dowload_without_filter_fails plain_path slash fetch_all any_mkdir
           example_album (Some "out") ∅).
  vm_compute. reflexivity.
Defined.



(** C2. When the output file of an image that is asked for is there, the turn
    fetches nothing: it adds one to the count of processed images, calls
    [on_start] and then [on_completion] with [skipped] set and with the new
    count, and goes on.  So after a run with no filter that reached the end,
    a second run on the same disk, on any network, reaches the end as well,
    fetches nothing, leaves the disk as it is and reports every image of the
    album as skipped, in order, with the counts from one to the number of
    images. *)
Theorem second_run_skips_everything Path joinpath self :
  (∀ urlretrieve outdir only i st name num,
     Py.rsplit1 "_" i = [name; num] →
     is_selected only i →
     joinpath outdir (num +:+ ".jpg") ∈ files st →
     let skip := dowload_body joinpath urlretrieve self outdir only i st in
     skip =
       (let c0 := update_current (joinpath outdir (num +:+ ".jpg"))
                    (image_url self i) (context st) in
        {| context := add_processed c0;
           files := files st;
           calls := calls st
                    ++ [on_start c0; on_completion (add_processed c0) true false] |},
        continue) ∧
     processed_images (context (skip.1)) = (processed_images (context st) + 1)%nat ∧
     fetches (calls (skip.1)) = fetches (calls st) ∧
     completed_counts (calls (skip.1))
     = (completed_counts (calls st) ++ [(processed_images (context st) + 1)%nat])%list) ∧
  (∀ urlretrieve1 mkdir_ok1 urlretrieve2 mkdir_ok2 directory fs,
     let first :=
       dowload Path joinpath urlretrieve1 mkdir_ok1 self directory (Some ∅) fs in
     let second :=
       dowload Path joinpath urlretrieve2 mkdir_ok2 self directory (Some ∅)
         (files_after first) in
     ending first = finished →
     ending second = finished ∧
     files_after second = files_after first ∧
     fetches (calls_made second) = [] ∧
     starts (calls_made second) = image_url self <$> image_names self ∧
     completions (calls_made second)
     = ((λ i, (Some (image_url self i), true, false)) <$> image_names self) ∧
     completed_counts (calls_made second) = seq 1 (image_count self)).
Proof.
  split.
  { intros urlretrieve outdir only i st name num Hr Hsel Hin. cbv zeta.
    rewrite (dowload_body_skips _ _ _ _ _ _ _ _ _ Hr Hsel Hin). cbv zeta.
    split; [done|]. cbn [fst context calls add_processed processed_images
                          update_current].
    split; [done|].
    unfold fetches, completed_counts. rewrite !omap_app. simpl.
    by rewrite app_nil_r. }
  intros urlretrieve1 mkdir_ok1 urlretrieve2 mkdir_ok2 directory fs.
  unfold dowload, run_of.
  rewrite bool_decide_eq_true_2 by apply empty_subseteq.
  rewrite (bool_decide_eq_false_2 (∅ ≠ ∅)) by (by intros []).
  set (outdir := Path _). set (c := {| current_image := None |}).
  assert (∀ fs0 st1,
    outdir ∈ fs0 →
    dowload_loop joinpath urlretrieve1 self outdir ∅ (image_names self)
      {| context := c; files := fs0; calls := [] |} = (st1, finished) →
    let second :=
      if bool_decide (outdir ∈ files st1)
      then run_of (dowload_loop joinpath urlretrieve2 self outdir ∅ (image_names self)
                     {| context := c; files := files st1; calls := [] |})
      else if mkdir_ok2 outdir
      then run_of (dowload_loop joinpath urlretrieve2 self outdir ∅ (image_names self)
                     {| context := c; files := files st1 ∪ {[outdir]}; calls := [] |})
      else {| files_after := files st1; calls_made := [];
              ending := raised OSError |} in
    ending second = finished ∧
    files_after second = files st1 ∧
    fetches (calls_made second) = [] ∧
    starts (calls_made second) = image_url self <$> image_names self ∧
    completions (calls_made second)
    = ((λ i, (Some (image_url self i), true, false)) <$> image_names self) ∧
    completed_counts (calls_made second) = seq 1 (image_count self)) as Hloop.
  { intros fs0 st1 Hout Hl.
    apply dowload_loop_finished_files in Hl as [Hsub Hall]; [|done].
    simpl in Hsub. rewrite bool_decide_eq_true_2 by set_solver.
    assert (Forall (λ i, is_selected ∅ i ∧
                         ∃ name num, Py.rsplit1 "_" i = [name; num] ∧
                                     joinpath outdir (num +:+ ".jpg") ∈ files st1)
              (image_names self)) as Hall'.
    { eapply Forall_impl; [exact Hall|]. simpl. intros i Hi. split; [by left|done]. }
    pose proof (dowload_loop_all_skipped_counts joinpath urlretrieve2 self outdir ∅
                  (image_names self)
                  {| context := c; files := files st1; calls := [] |} Hall') as Hcount.
    edestruct (dowload_loop_all_skipped joinpath urlretrieve2 self outdir ∅
                 (image_names self)
                 {| context := c; files := files st1; calls := [] |})
      as (st2 & Hl2 & Hf & Hfe & Hs & Hd); [exact Hall'|].
    unfold run_of. rewrite Hl2 in Hcount |- *. simpl in *.
    by rewrite Hf, Hfe, Hs, Hd, Hcount. }
  destruct (bool_decide (outdir ∈ fs)) eqn:Hout.
  - apply bool_decide_eq_true_1 in Hout.
    destruct (dowload_loop joinpath urlretrieve1 _ _ _ _ _) as [st1 e] eqn:Hl.
    simpl. intros ->. by apply (Hloop fs).
  - destruct (mkdir_ok1 outdir); [|done].
    destruct (dowload_loop joinpath urlretrieve1 _ _ _ _ _) as [st1 e] eqn:Hl.
    simpl. intros ->. apply (Hloop (fs ∪ {[outdir]})); [set_solver|done].
Qed.

Lemma second_run_skips_everything_example :
  let first :=
    dowload plain_path slash fetch_all any_mkdir example_album (Some "out") (Some ∅) ∅ in
  let second :=
    dowload plain_path slash (interrupt_at "out/2.jpg") any_mkdir example_album
      (Some "out") (Some ∅) (files_after first) in
  ending first = finished ∧
  ending second = finished ∧
  files_after second = files_after first ∧
  fetches (calls_made second) = [] ∧
  starts (calls_made second) = image_url example_album <$> image_names example_album ∧
  completions (calls_made second)
  = ((λ i, (Some (image_url example_album i), true, false))
       <$> image_names example_album) ∧
  completed_counts (calls_made second) = [1; 2; 3].
Proof.
  cbv zeta. split; [vm_compute; reflexivity|].
  destruct (second_run_skips_everything plain_path slash example_album) as [_ H].
  apply (H fetch_all any_mkdir (interrupt_at "out/2.jpg") any_mkdir (Some "out") ∅).
  vm_compute. reflexivity.
Defined.

Lemma interrupted_fetch_ends_run_example :
  (let r := dowload plain_path slash (interrupt_at "out/2.jpg") any_mkdir
              example_album (Some "out") (Some ∅) ∅ in
   ending r = stopped ∧
   "out/1.jpg" ∈ files_after r ∧
   ("out/2.jpg" ∉ files_after r) ∧
   ("out/3.jpg" ∉ files_after r) ∧
   starts (calls_made r) = image_url example_album <$> ["a_1"; "b_2"] ∧
   completions (calls_made r)
   = [(Some (image_url example_album "a_1"), false, false);
      (Some (image_url example_album "b_2"), false, true)]) ∧
  ∃ st1,
    dowload_loop slash (interrupt_at "out/2.jpg") example_album "out" ∅
      ["a_1"] (example_start 3) = (st1, finished) ∧
    ∃ st2 c es,
      let outfile := slash "out" ("2" +:+ ".jpg") in
      let c0 := update_current outfile (image_url example_album "b_2") (context st1) in
      dowload_loop slash (interrupt_at "out/2.jpg") example_album "out" ∅
        (["a_1"] ++ "b_2" :: ["c_3"])%list (example_start 3) = (st2, stopped) ∧
      files st2 = files st1 ∧
      (outfile ∉ files st2) ∧
      calls st2 = (calls st1
                   ++ [on_start c0; urlretrieve_call (image_url example_album "b_2") outfile]
                   ++ es ++ [on_completion c false true])%list ∧
      progress_of c0 es ∧
      current_image c = Some outfile ∧
      current_image_url c = Some (image_url example_album "b_2") ∧
      processed_images c = processed_images (context st1).
Proof.
  split.
  { cbv zeta. split; [vm_compute; reflexivity|]. do 3 (split; [compute_done|]).
    split; vm_compute; reflexivity. }
  eexists. split; [vm_compute; reflexivity|].
  apply (interrupted_fetch_ends_run slash (interrupt_at "out/2.jpg") example_album
           "out" ∅ ["a_1"] ["c_3"] "b_2" (example_start 3) _ "b" "2" true).
  - vm_compute. reflexivity.
  - reflexivity.
  - by left.
  - compute_done.
  - reflexivity.
Defined.

Lemma unselected_image_is_invisible_example :
  ∃ st',
    dowload_loop slash fetch_all example_album "out" {[ "b_2" ]}
      ["a_1"; "b_2"; "c_3"] (example_start 1) = (st', finished) ∧
    fetches (calls st') = [(image_url example_album "b_2", "out/2.jpg")] ∧
    starts (calls st') = [image_url example_album "b_2"] ∧
    (∀ ev, ev ∈ calls st' →
       event_url ev ≠ Some (image_url example_album "a_1") ∧
       event_url ev ≠ Some (image_url example_album "c_3")) ∧
    (∀ ev c, ev ∈ calls st' → event_context ev = Some c →
       (processed_images c ≤ 1)%nat).
Proof.
  eexists. split; [vm_compute; reflexivity|].
  split; [vm_compute; reflexivity|]. split; [vm_compute; reflexivity|].
  destruct (unselected_image_is_invisible slash fetch_all example_album "out"
              {[ "b_2" ]}) as [_ Hloop]; [compute_done|].
  edestruct (Hloop ["a_1"; "b_2"; "c_3"] (example_start 1))
    as (es & Hc & Hurl & Hp); [vm_compute; reflexivity|].
  simpl in Hc. rewrite Hc. split.
  - intros ev Hev. split; apply Hurl; [compute_done|done|compute_done|done].
  - intros ev c Hev Hcx. apply (Hp ev c Hev Hcx).
Defined.

(** * More of the program *)

(** ** Range expressions: which are accepted, and how they combine *)

Lemma RangeList_loop_term i terms only :
  RangeList_loop (i :: terms) only =
    match RangeList_term i with
    | Ok added => RangeList_loop terms (only ∪ added)
    | Raise e => Raise e
    end.
Proof.
  unfold RangeList_term. simpl.
  destruct (Py.partition "-" i) as [[a ok] b].
  destruct (Py.int a) as [n|]; [|done]. simpl.
  destruct (decide (ok ≠ "")); [|done].
  destruct (Py.int b) as [m|]; [|done]. simpl.
  by destruct (n >=? m)%Z.
Qed.

Lemma RangeList_term_readable i :
  is_Some (read_term i) ↔ ∃ added, RangeList_term i = Ok added.
Proof.
  unfold read_term, RangeList_term, Py.int.
  destruct (Py.partition "-" i) as [[a ok] b].
  destruct (Py.int_opt a) as [n|]; simpl; [|split; [by intros [? ?]|by intros [? ?]]].
  destruct (decide (ok = "")) as [->|Hok].
  - rewrite decide_False by (by intros []). split; eauto.
  - rewrite decide_True by done.
    destruct (Py.int_opt b) as [m|]; simpl; [|split; [by intros [? ?]|by intros [? ?]]].
    destruct (decide (n < m)%Z) as [Hnm|Hnm].
    + replace (n >=? m)%Z with false; [split; eauto|].
      symmetry. rewrite Z.geb_leb. apply Z.leb_gt. lia.
    + replace (n >=? m)%Z with true; [split; [by intros [? ?]|by intros [? ?]]|].
      symmetry. rewrite Z.geb_leb. apply Z.leb_le. lia.
Qed.

(** The set built so far only comes in by union. *)
Lemma RangeList_loop_from terms only :
  RangeList_loop terms only =
    match RangeList_loop terms ∅ with
    | Ok more => Ok (only ∪ more)
    | Raise e => Raise e
    end.
Proof.
  revert only. induction terms as [|i terms IH]; intros only.
  - simpl. by rewrite (right_id_L ∅ (∪)).
  - rewrite !RangeList_loop_term. destruct (RangeList_term i) as [added|]; [|done].
    rewrite (IH (only ∪ added)), (IH (∅ ∪ added)).
    destruct (RangeList_loop terms ∅) as [more|]; [|done].
    f_equal. set_solver.
Qed.

Lemma split_nonempty sep s : Py.split sep s ≠ [].
Proof.
  destruct s as [|c s]; simpl; [done|].
  destruct (decide (c = sep)); [done|]. by destruct (Py.split sep s).
Qed.

Lemma split_app sep s1 s2 :
  Py.split sep (s1 +:+ String sep s2) = (Py.split sep s1 ++ Py.split sep s2)%list.
Proof.
  induction s1 as [|c s1 IH]; simpl.
  - by rewrite decide_True.
  - destruct (decide (c = sep)); [by rewrite IH|].
    rewrite IH. pose proof (split_nonempty sep s1).
    by destruct (Py.split sep s1).
Qed.

Lemma RangeList_set_Ok s :
  (∃ l, RangeList s = Ok l) ↔ ∃ only, RangeList_set s = Ok only.
Proof.
  unfold RangeList. destruct (RangeList_set s) as [only|]; simpl.
  - split; eauto.
  - split; [by intros [? ?]|by intros [? ?]].
Qed.

Lemma RangeList_loop_accepts terms only :
  (∃ S, RangeList_loop terms only = Ok S) ↔ Forall (λ u, is_Some (read_term u)) terms.
Proof.
  split; [|apply RangeList_loop_readable].
  intros [S (ts & Hts & _)%RangeList_loop_Ok].
  apply Forall_forall. intros u Hu.
  apply list_elem_of_lookup in Hu as [k Hk].
  destruct (Forall2_lookup_l _ _ _ _ _ Hts Hk) as (t & _ & Ht). by exists t.
Qed.

(** X1. [RangeList] accepts an expression exactly when each of its
    comma-separated terms reads as a number or as a range [N-M] with
    [N < M]; any other expression makes it raise a [ValueError]. *)
Theorem RangeList_accepts_iff s :
  ((∃ l, RangeList s = Ok l)
   ↔ Forall (λ u, is_Some (read_term u)) (Py.split "," s)) ∧
  ((∃ w, RangeList s = Raise (ValueError w))
   ↔ Exists (λ u, read_term u = None) (Py.split "," s)).
Proof.
  assert ((∃ l, RangeList s = Ok l)
          ↔ Forall (λ u, is_Some (read_term u)) (Py.split "," s)) as Hok.
  { rewrite RangeList_set_Ok. apply RangeList_loop_accepts. }
  split; [done|]. split.
  - intros [w Hw].
    assert (¬ Forall (λ u, is_Some (read_term u)) (Py.split "," s)) as Hn.
    { intros [l Hl]%Hok. congruence. }
    apply not_Forall_Exists in Hn; [|apply _].
    eapply Exists_impl; [exact Hn|]. simpl. intros u Hu.
    by apply eq_None_not_Some.
  - intros Hex. unfold RangeList, RangeList_set in *.
    destruct (RangeList_loop (Py.split "," s) ∅) as [only|e] eqn:Hl.
    + exfalso. assert (∃ S, RangeList_loop (Py.split "," s) ∅ = Ok S) as Hacc by eauto.
      apply RangeList_loop_accepts in Hacc.
      apply Exists_exists in Hex as (u & Hu & Hnone).
      rewrite Forall_forall in Hacc. destruct (Hacc _ Hu) as [t Ht]. congruence.
    + apply RangeList_loop_raises in Hl as [w ->]. eauto.
Qed.

Lemma RangeList_unreadable_term s u :
  u ∈ Py.split "," s → read_term u = None →
  ∃ w, RangeList s = Raise (ValueError w).
Proof.
  intros Hu Hnone. unfold RangeList, RangeList_set.
  destruct (RangeList_loop (Py.split "," s) ∅) as [only|e] eqn:Hl.
  - assert (∃ S, RangeList_loop (Py.split "," s) ∅ = Ok S) as Hacc by eauto.
    apply RangeList_loop_accepts in Hacc. rewrite Forall_forall in Hacc.
    destruct (Hacc _ Hu) as [t Ht]. congruence.
  - apply RangeList_loop_raises in Hl as [w ->]. eauto.
Qed.

(** X2. A comma with nothing before it, after it, or between it and the
    next comma leaves an empty term, and [RangeList] raises a [ValueError]:
    an expression may neither start nor end with a comma, nor hold two in a
    row. *)
Theorem RangeList_rejects_stray_comma s1 s2 :
  (∃ w, RangeList (s1 +:+ ",") = Raise (ValueError w)) ∧
  (∃ w, RangeList ("," +:+ s2) = Raise (ValueError w)) ∧
  (∃ w, RangeList (s1 +:+ ",," +:+ s2) = Raise (ValueError w)).
Proof.
  split; [|split].
  - apply (RangeList_unreadable_term _ ""); [|done].
    rewrite (split_app "," s1 ""). apply elem_of_app. right. by left.
  - apply (RangeList_unreadable_term _ ""); [|done]. simpl. by left.
  - apply (RangeList_unreadable_term _ ""); [|done].
    change (s1 +:+ ",," +:+ s2) with (s1 +:+ String "," (String "," s2)).
    rewrite split_app. apply elem_of_app. right. simpl. by left.
Qed.

(** X3. Joining two expressions with a comma gives the union of what they
    select; when one of them is rejected the joined expression is rejected
    with the same error, the one of the left expression coming first. *)
Theorem RangeList_set_join s1 s2 :
  RangeList_set (s1 +:+ "," +:+ s2) =
    match RangeList_set s1, RangeList_set s2 with
    | Ok only1, Ok only2 => Ok (only1 ∪ only2)
    | Ok _, Raise e => Raise e
    | Raise e, _ => Raise e
    end.
Proof.
  unfold RangeList_set.
  change (s1 +:+ "," +:+ s2) with (s1 +:+ String "," s2).
  rewrite split_app, RangeList_loop_app.
  destruct (RangeList_loop (Py.split "," s1) ∅) as [only1|]; [|done].
  rewrite RangeList_loop_from.
  by destruct (RangeList_loop (Py.split "," s2) ∅).
Qed.

Lemma RangeList_loop_perm (l1 l2 : list string) :
  l1 ≡ₚ l2 → ∀ only S, RangeList_loop l1 only = Ok S → RangeList_loop l2 only = Ok S.
Proof.
  induction 1 as [|x l1 l2 _ IH|x y l|l1 l2 l3 _ IH1 _ IH2]; intros only S.
  - done.
  - rewrite !RangeList_loop_term. destruct (RangeList_term x); [apply IH|done].
  - rewrite (RangeList_loop_term y), (RangeList_loop_term x _ only).
    destruct (RangeList_term y) as [b|] eqn:Hy;
      destruct (RangeList_term x) as [a|] eqn:Hx;
      rewrite ?RangeList_loop_term, ?Hx, ?Hy; try done.
    replace (only ∪ a ∪ b) with (only ∪ b ∪ a) by set_solver. done.
  - intros H. by apply IH2, IH1.
Qed.

(** X4. The order of the terms does not matter: two accepted expressions
    whose terms are the same up to order select the same set. *)
Theorem RangeList_set_order s1 s2 only :
  Py.split "," s1 ≡ₚ Py.split "," s2 →
  RangeList_set s1 = Ok only →
  RangeList_set s2 = Ok only.
Proof. unfold RangeList_set. intros Hp. by apply RangeList_loop_perm. Qed.

Lemma RangeList_set_order_example :
  RangeList_set "7,1-3,5" = RangeList_set "1-3,5,7".
Proof.
  rewrite (RangeList_set_order "1-3,5,7" "7,1-3,5" {[ 1; 2; 3; 5; 7 ]}%Z).
  - vm_compute. reflexivity.
  - change (Py.split "," "1-3,5,7") with ["1-3"; "5"; "7"].
    change (Py.split "," "7,1-3,5") with ["7"; "1-3"; "5"].
    by rewrite (Permutation_cons_append ["1-3"; "5"] "7").
  - vm_compute. reflexivity.
Defined.

(** ** [main]: the pages asked for and the images they name *)

Lemma getitem_elem (l : list string) k x : Py.getitem l k = Ok x → x ∈ l.
Proof.
  unfold Py.getitem. destruct (_ && _)%Z; [|done].
  destruct (l !! _) as [y|] eqn:Hy; [|done].
  intros [= <-]. by eapply list_elem_of_lookup_2.
Qed.

Lemma getitem_mod (l : list string) k :
  (- Z.of_nat (List.length l) ≤ k < Z.of_nat (List.length l))%Z →
  ∃ x, Py.getitem l k = Ok x ∧
       l !! Z.to_nat (k mod Z.of_nat (List.length l))%Z = Some x.
Proof.
  intros Hk. unfold Py.getitem. set (n := Z.of_nat (List.length l)) in *.
  assert ((k mod n)%Z = if (k <? 0)%Z then (k + n)%Z else k) as Hmod.
  { destruct (k <? 0)%Z eqn:Hneg.
    - apply Z.ltb_lt in Hneg. rewrite <- (Z_mod_plus_full k 1 n).
      rewrite Z.mul_1_l. apply Z.mod_small. lia.
    - apply Z.ltb_ge in Hneg. apply Z.mod_small. lia. }
  rewrite Hmod. set (j := if (k <? 0)%Z then (k + n)%Z else k) in *.
  assert (0 ≤ j < n)%Z as Hj.
  { unfold j. destruct (k <? 0)%Z eqn:Hneg;
      [apply Z.ltb_lt in Hneg|apply Z.ltb_ge in Hneg]; lia. }
  replace ((0 <=? j) && (j <? n))%Z with true
    by (symmetry; apply andb_true_iff; split; [apply Z.leb_le|apply Z.ltb_lt]; lia).
  destruct (lookup_lt_is_Some_2 l (Z.to_nat j)) as [x Hx]; [unfold n in Hj; lia|].
  rewrite Hx. eauto.
Qed.

Lemma foldl_max_ge (l : list Z) a :
  (a ≤ foldl Z.max a l)%Z ∧ ∀ x, x ∈ l → (x ≤ foldl Z.max a l)%Z.
Proof.
  revert a. induction l as [|y l IH]; intros a; simpl.
  - split; [lia|]. by intros x ?%elem_of_nil.
  - destruct (IH (Z.max a y)) as [H1 H2]. split; [lia|].
    intros x [->|Hx]%elem_of_cons; [lia|by apply H2].
Qed.

Lemma foldl_max_le (l : list Z) a c :
  (a ≤ c)%Z → Forall (λ x, x ≤ c)%Z l → (foldl Z.max a l ≤ c)%Z.
Proof.
  revert a. induction l as [|y l IH]; intros a Ha Hl; simpl; [done|].
  apply Forall_cons in Hl as [Hy Hl]. apply IH; [lia|done].
Qed.

Lemma max_ge (l : list Z) x : x ∈ l → (x ≤ Py.max l)%Z.
Proof.
  destruct l as [|y l]; [by intros ?%elem_of_nil|]. simpl.
  destruct (foldl_max_ge l y) as [H1 H2].
  intros [->|Hx]%elem_of_cons; [done|by apply H2].
Qed.

Lemma max_le (l : list Z) c :
  l ≠ [] → Forall (λ x, x ≤ c)%Z l → (Py.max l ≤ c)%Z.
Proof.
  destruct l as [|y l]; [done|]. intros _ [Hy Hl]%Forall_cons. simpl.
  by apply foldl_max_le.
Qed.

Lemma names_of_pages_subset names images only :
  names_of_pages names images = Ok only → ∀ x, x ∈ only → x ∈ names.
Proof.
  revert only. induction images as [|i images IH]; intros only; simpl.
  - intros [= <-] x. by intros ?%not_elem_of_empty.
  - destruct (Py.getitem names (i - 1)) as [name|] eqn:Hi; [|done]. simpl.
    destruct (names_of_pages names images) as [only'|]; [|done]. simpl.
    intros [= <-] x [->%elem_of_singleton|Hx]%elem_of_union.
    + by eapply getitem_elem.
    + by eapply IH.
Qed.

Lemma names_of_pages_in_range (names : list string) images :
  Forall (λ i, 0 ≤ i ≤ Z.of_nat (List.length names))%Z images →
  names ≠ [] →
  ∃ only,
    names_of_pages names images = Ok only ∧
    ∀ x, x ∈ only ↔
         ∃ i, i ∈ images ∧
              names !! Z.to_nat ((i - 1) mod Z.of_nat (List.length names))%Z = Some x.
Proof.
  intros Himages Hnames.
  assert (0 < Z.of_nat (List.length names))%Z as Hpos by (destruct names; simpl; [done|lia]).
  induction Himages as [|i images Hi _ (only & Honly & Hin)]; simpl.
  - exists ∅. split; [done|]. intros x. split; [by intros ?%not_elem_of_empty|].
    by intros (i & ?%elem_of_nil & _).
  - destruct (getitem_mod names (i - 1)) as (name & Hget & Hname); [lia|].
    rewrite Hget, Honly. simpl. eexists. split; [done|].
    intros x. rewrite elem_of_union, elem_of_singleton, Hin. split.
    + intros [->|(j & Hj & Hx)]; [exists i|exists j]; (split; [|done]);
        [by left|by right].
    + intros (j & [->|Hj]%elem_of_cons & Hx); [left; congruence|right; eauto].
Qed.

(** X5. Every name [main] hands to [dowload] is the name of an image of the
    album, so the precondition [dowload] asserts holds for it. *)
Theorem main_only_subset self images only :
  main_only self images = Ok only →
  only ⊆ list_to_set (image_names self).
Proof.
  unfold main_only. destruct (_ && _); [done|].
  intros H x Hx. apply elem_of_list_to_set. by eapply names_of_pages_subset.
Qed.

Lemma main_only_subset_example :
  ({[ "a_1"; "c_3" ]} : gset string) ⊆ list_to_set (image_names example_album).
Proof.
  apply (main_only_subset example_album [1; 3]%Z). vm_compute. reflexivity.
Defined.

Lemma main_only_in_range self images :
  Forall (λ i, 0 ≤ i ≤ Z.of_nat (image_count self))%Z images →
  main_only self images = names_of_pages (image_names self) images.
Proof.
  intros Himages. unfold main_only.
  replace (bool_decide (images ≠ []) && _) with false; [done|].
  symmetry. apply andb_false_iff. destruct images as [|i images]; [by left|].
  right. apply Z.ltb_ge. apply max_le; [done|].
  eapply Forall_impl; [exact Himages|]. simpl. lia.
Qed.

Lemma main_only_exit self images i :
  i ∈ images →
  (Z.of_nat (image_count self) < i)%Z →
  main_only self images = Raise SystemExit.
Proof.
  intros Hi Hlt. unfold main_only.
  rewrite bool_decide_eq_true_2 by (intros ->; by apply elem_of_nil in Hi).
  simpl. pose proof (max_ge _ _ Hi).
  by replace (_ <? _)%Z with true by (symmetry; apply Z.ltb_lt; lia).
Qed.

(** X6. On an album that is not empty, pages from zero to the number of
    images are all accepted, and page [i] names the image at position
    [(i - 1)] modulo the number of images, counted from zero: pages from one
    on name the images in order, and page zero names the last image. *)
Theorem main_only_positions self images :
  image_names self ≠ [] →
  Forall (λ i, 0 ≤ i ≤ Z.of_nat (image_count self))%Z images →
  ∃ only,
    main_only self images = Ok only ∧
    ∀ x, x ∈ only ↔
         ∃ i, i ∈ images ∧
              image_names self !! Z.to_nat ((i - 1) mod Z.of_nat (image_count self))%Z
              = Some x.
Proof.
  intros Hnames Himages. rewrite main_only_in_range; [|done].
  by apply names_of_pages_in_range.
Qed.

Lemma main_only_positions_example :
  main_only example_album [0; 2]%Z = Ok {[ "c_3"; "b_2" ]} ∧
  ∃ only,
    main_only example_album [0; 2]%Z = Ok only ∧
    ∀ x, x ∈ only ↔
         ∃ i, i ∈ [0; 2]%Z ∧
              image_names example_album
                !! Z.to_nat ((i - 1) mod Z.of_nat (image_count example_album))%Z
              = Some x.
Proof.
  split; [vm_compute; reflexivity|].
  apply (main_only_positions example_album [0; 2]%Z); [done|].
  repeat constructor; vm_compute; congruence.
Defined.

(** X7. When a page asked for is beyond the number of images of the album,
    [main] ends with the error exit of the argument parser and hands nothing
    to [dowload]. *)
Theorem main_only_out_of_bounds self images i :
  i ∈ images →
  (Z.of_nat (image_count self) < i)%Z →
  main_only self images = Raise SystemExit.
Proof. apply main_only_exit. Qed.

Lemma main_only_out_of_bounds_example :
  main_only example_album [1; 999]%Z = Raise SystemExit.
Proof.
  apply (main_only_out_of_bounds example_album [1; 999]%Z 999).
  - right. by left.
  - vm_compute. reflexivity.
Defined.

Lemma RangeList_nonneg s l : RangeList s = Ok l → Forall (λ z, 0 ≤ z)%Z l.
Proof.
  intros (S & HS & ->)%RangeList_Ok.
  apply RangeList_loop_Ok in HS as (ts & Hts & HS).
  apply Forall_forall. intros z Hz.
  apply elem_of_elements, HS in Hz as [[]%not_elem_of_empty|Hz].
  apply Exists_exists in Hz as (t & Ht & Hz).
  apply list_elem_of_lookup in Ht as [k Hk].
  destruct (Forall2_lookup_r _ _ _ _ _ Hts Hk) as (text & _ & Htext).
  by apply (read_term_nonneg _ _ _ Htext).
Qed.

(** X8. For a range expression that [RangeList] accepts and an album that
    is not empty, [main] either ends with the error exit, some page being
    beyond the album, or finds a set of names of images of the album for
    [dowload]; it never fails on an index out of range. *)
Theorem main_only_after_RangeList self text images :
  args_images (Some text) = Ok images →
  image_names self ≠ [] →
  main_only self images = Raise SystemExit ∨
  ∃ only, main_only self images = Ok only ∧
          only ⊆ list_to_set (image_names self).
Proof.
  intros Hargs Hnames. assert (RangeList text = Ok images) as Hrange.
  { simpl in Hargs. destruct (RangeList text) as [l|[]]; congruence. }
  apply RangeList_nonneg in Hrange.
  destruct (decide (Forall (λ i, i ≤ Z.of_nat (image_count self))%Z images))
    as [Hle|Hgt].
  - right.
    assert (Forall (λ i, 0 ≤ i ≤ Z.of_nat (image_count self))%Z images) as Hin.
    { apply Forall_forall. intros i Hi. rewrite Forall_forall in Hrange, Hle.
      split; [by apply Hrange|by apply Hle]. }
    rewrite (main_only_in_range _ _ Hin).
    destruct (names_of_pages_in_range (image_names self) images Hin Hnames)
      as (only & Honly & _).
    exists only. split; [done|]. intros x Hx. apply elem_of_list_to_set.
    by eapply names_of_pages_subset.
  - left. apply not_Forall_Exists in Hgt; [|apply _].
    apply Exists_exists in Hgt as (i & Hi & Hlt). simpl in Hlt.
    apply (main_only_exit _ _ i); [done|lia].
Qed.

Lemma main_only_after_RangeList_example :
  ∃ images,
    args_images (Some "0,2-3") = Ok images ∧
    (main_only example_album images = Raise SystemExit ∨
     ∃ only, main_only example_album images = Ok only ∧
             only ⊆ list_to_set (image_names example_album)).
Proof.
  eexists. split; [vm_compute; reflexivity|].
  apply (main_only_after_RangeList example_album "0,2-3"); [|done].
  vm_compute. reflexivity.
Defined.

(** ** The download: what a run does to the disk and how it can end *)

(** [dowload], step by step. *)
Lemma dowload_unfold Path joinpath urlretrieve mkdir_ok self directory only fs :
  dowload Path joinpath urlretrieve mkdir_ok self directory only fs =
    match only with
    | None => {| files_after := fs; calls_made := []; ending := raised AttributeError |}
    | Some only =>
        let outdir := outdir_of Path self directory in
        if bool_decide (only ⊆ list_to_set (image_names self)) then
          if bool_decide (outdir ∈ fs) then
            run_of (dowload_loop joinpath urlretrieve self outdir only
                      (image_names self) (dowload_start self only fs))
          else if mkdir_ok outdir then
            run_of (dowload_loop joinpath urlretrieve self outdir only
                      (image_names self)
                      (dowload_start self only (fs ∪ {[ outdir ]})))
          else {| files_after := fs; calls_made := []; ending := raised OSError |}
        else {| files_after := fs; calls_made := []; ending := raised AssertionError |}
    end.
Proof. reflexivity. Qed.

Lemma rsplit1_occurs sep i :
  if Py.occurs sep i
  then ∃ name num, Py.rsplit1 sep i = [name; num]
  else Py.rsplit1 sep i = [i].
Proof.
  induction i as [|c i IH]; simpl; [done|].
  destruct (Py.occurs sep i).
  - destruct IH as (name & num & ->). rewrite orb_true_r. eauto.
  - rewrite IH, orb_false_r. case_bool_decide as Hc.
    + rewrite decide_True by done. eauto.
    + by rewrite decide_False.
Qed.

Section Runs.

Variable joinpath : string → string → string.
Variable urlretrieve : string → string → fetch.
Variable self : INHAAlbumDownloader.
Variable outdir : string.
Variable only : gset string.

Abbreviation body := (dowload_body joinpath urlretrieve self outdir only).
Abbreviation loop := (dowload_loop joinpath urlretrieve self outdir only).
Abbreviation turn_of := (turn joinpath urlretrieve self outdir only).

(** A turn takes no file away, and adds the output file of its image at
    most. *)
Lemma turn_files i st st' ctl :
  turn_of i st st' ctl →
  files st ⊆ files st' ∧
  ∀ f, f ∈ files st' →
       f ∈ files st ∨ (is_selected only i ∧ outfile_of joinpath outdir i = Some f).
Proof.
  intros H. unfold outfile_of. inversion H as
    [ Hno
    | name num Hr Hsel
    | name num c0 Hr Hsel Hc0 Hex
    | name num c0 c1 es Hr Hsel Hc0 Hex Hend Hc1 Hes
    | name num c0 c1 es created Hr Hsel Hc0 Hex Hend Hc1 Hes
    | name num c0 c1 es created Hr Hsel Hc0 Hex Hend Hc1 Hes ]; subst; simpl;
    try rewrite Hr; try (split; [done|by left]).
  - split; [apply union_subseteq_l|].
    intros f [Hf| ->%elem_of_singleton]%elem_of_union; [by left|by right].
  - destruct created; [|split; [done|by left]].
    split; [apply union_subseteq_l|].
    intros f [Hf| ->%elem_of_singleton]%elem_of_union; [by left|by right].
Qed.

Lemma dowload_loop_files names st st' e :
  loop names st = (st', e) →
  files st ⊆ files st' ∧
  ∀ f, f ∈ files st' →
       f ∈ files st ∨
       ∃ i, i ∈ names ∧ is_selected only i ∧ outfile_of joinpath outdir i = Some f.
Proof.
  revert st. induction names as [|i names IH]; intros st; simpl.
  { intros [= <- <-]. split; [done|]. intros f Hf. by left. }
  destruct (body i st) as [st1 ctl] eqn:Hb.
  apply dowload_body_inv, turn_files in Hb as [Hsub Hnew].
  assert (∀ f, f ∈ files st1 →
            f ∈ files st ∨
            ∃ j, j ∈ i :: names ∧ is_selected only j ∧
                 outfile_of joinpath outdir j = Some f) as Hnew'.
  { intros f [Hf|[Hsel Hout]]%Hnew; [by left|right].
    exists i. split; [by left|done]. }
  destruct ctl as [| |e'].
  - intros [Hsub' Hnew'']%IH. split; [set_solver|].
    intros f [Hf|(j & Hj & Hsel & Hout)]%Hnew''; [by apply Hnew'|right].
    exists j. split; [by right|done].
  - by intros [= <- <-].
  - by intros [= <- <-].
Qed.

(** The loop raises for two reasons only: a name with no underscore, and a
    fetch that fails. *)
Lemma dowload_loop_raised names st st' e :
  loop names st = (st', raised e) →
  e = URLError ∨
  (e = ValueError not_enough_values ∧ ∃ i, i ∈ names ∧ Py.occurs "_" i = false).
Proof.
  revert st. induction names as [|i names IH]; intros st; simpl; [done|].
  destruct (body i st) as [st1 ctl] eqn:Hb. apply dowload_body_inv in Hb.
  destruct ctl as [| |e'].
  - intros [->|(-> & j & Hj & Hocc)]%IH; [by left|right].
    split; [done|]. exists j. split; [by right|done].
  - done.
  - intros [= <- <-]. inversion Hb as
    [ Hno
    | name num Hr Hsel
    | name num c0 Hr Hsel Hc0 Hex
    | name num c0 c1 es Hr Hsel Hc0 Hex Hend Hc1 Hes
    | name num c0 c1 es created Hr Hsel Hc0 Hex Hend Hc1 Hes
    | name num c0 c1 es created Hr Hsel Hc0 Hex Hend Hc1 Hes ]; subst; [right|by left].
    split; [done|]. exists i. split; [by left|].
    pose proof (rsplit1_occurs "_" i) as Hi.
    destruct (Py.occurs "_" i); [|done].
    destruct Hi as (name & num & Hr). by destruct (Hno _ _ Hr).
Qed.

End Runs.

(** X9. A run never takes away a path that was there when it began,
    however it ends. *)
Theorem dowload_keeps_files Path joinpath urlretrieve mkdir_ok self directory only fs :
  fs ⊆ files_after (dowload Path joinpath urlretrieve mkdir_ok self directory only fs).
Proof.
  rewrite dowload_unfold. destruct only as [only|]; [|done]. cbv zeta.
  destruct (bool_decide (only ⊆ _)); [|done].
  destruct (bool_decide (_ ∈ fs)).
  - destruct (dowload_loop _ _ _ _ _ _ _) as [st' e] eqn:Hl.
    by apply dowload_loop_files in Hl as [Hsub _].
  - destruct (mkdir_ok _); [|done].
    destruct (dowload_loop _ _ _ _ _ _ _) as [st' e] eqn:Hl.
    apply dowload_loop_files in Hl as [Hsub _]. simpl in *.
    etrans; [apply union_subseteq_l|exact Hsub].
Qed.

(** X10. The only paths a run adds are the output directory and the output
    files of images of the album that are asked for: the paths that joining
    the output directory with the part of the name after its last underscore,
    followed by [.jpg], gives. *)
Theorem dowload_new_files Path joinpath urlretrieve mkdir_ok self directory only fs f :
  f ∈ files_after (dowload Path joinpath urlretrieve mkdir_ok self directory only fs) →
  f ∈ fs ∨
  f = outdir_of Path self directory ∨
  ∃ only' i, only = Some only' ∧ i ∈ image_names self ∧ is_selected only' i ∧
             outfile_of joinpath (outdir_of Path self directory) i = Some f.
Proof.
  rewrite dowload_unfold. destruct only as [only|]; [|by left]. cbv zeta.
  destruct (bool_decide (only ⊆ _)); [|by left].
  destruct (bool_decide (_ ∈ fs)).
  - destruct (dowload_loop _ _ _ _ _ _ _) as [st' e] eqn:Hl.
    apply dowload_loop_files in Hl as [_ Hnew]. simpl.
    intros [Hf|(i & Hi & Hsel & Hout)]%Hnew; [by left|].
    right. right. by exists only, i.
  - destruct (mkdir_ok _); [|by left].
    destruct (dowload_loop _ _ _ _ _ _ _) as [st' e] eqn:Hl.
    apply dowload_loop_files in Hl as [_ Hnew]. simpl.
    intros [[Hf| ->%elem_of_singleton]%elem_of_union|(i & Hi & Hsel & Hout)]%Hnew;
      [by left|by right; left|].
    right. right. by exists only, i.
Qed.

Lemma dowload_new_files_example :
  "out/2.jpg" ∈ (∅ : gset string) ∨
  "out/2.jpg" = outdir_of plain_path example_album (Some "out") ∨
  ∃ only' i, Some ({[ "b_2" ]} : gset string) = Some only' ∧
             i ∈ image_names example_album ∧ is_selected only' i ∧
             outfile_of slash (outdir_of plain_path example_album (Some "out")) i
             = Some "out/2.jpg".
Proof.
  apply (dowload_new_files plain_path slash fetch_all any_mkdir example_album
           (Some "out") (Some {[ "b_2" ]}) ∅).
  compute_done.
Defined.

(** X11. A run fails before its loop in three cases, each of which leaves
    the disk as it is and makes no call: with [AttributeError] when no filter
    is given; with [AssertionError] when the filter holds a name that is no
    image of the album, whether the output directory is there or not; and with
    the error of [mkdir] when the filter is fine and the output directory is
    neither there nor can be made.  The other way round, a run that made a
    call or changed the disk was given a set of names of images of the album,
    and the output directory is there when it ends. *)
Theorem dowload_early_failures Path joinpath urlretrieve mkdir_ok self directory only fs :
  let r := dowload Path joinpath urlretrieve mkdir_ok self directory only fs in
  let outdir := outdir_of Path self directory in
  (only = None →
   ending r = raised AttributeError ∧ files_after r = fs ∧ calls_made r = []) ∧
  (∀ only', only = Some only' →
            ¬ only' ⊆ list_to_set (image_names self) →
            ending r = raised AssertionError ∧ files_after r = fs ∧ calls_made r = []) ∧
  (∀ only', only = Some only' →
            only' ⊆ list_to_set (image_names self) →
            outdir ∉ fs →
            mkdir_ok outdir = false →
            ending r = raised OSError ∧ files_after r = fs ∧ calls_made r = []) ∧
  (calls_made r ≠ [] ∨ files_after r ≠ fs →
   ∃ only', only = Some only' ∧
            only' ⊆ list_to_set (image_names self) ∧
            outdir ∈ files_after r).
Proof.
  cbv zeta. rewrite dowload_unfold. destruct only as [only|]; cbv zeta.
  2:{ split_and!; [done|done|done|]. by intros [|]. }
  assert (∀ st,
    outdir_of Path self directory ∈ files st →
    outdir_of Path self directory
    ∈ files_after (run_of (dowload_loop joinpath urlretrieve self
                             (outdir_of Path self directory) only
                             (image_names self) st))) as Hloop.
  { intros st Hin. destruct (dowload_loop _ _ _ _ _ _ _) as [st' e] eqn:Hl.
    apply dowload_loop_files in Hl as [Hsub _]. simpl. by apply Hsub. }
  case_bool_decide as Hsub; [case_bool_decide as Hdir|];
    [|destruct (mkdir_ok _) eqn:Hmk|].
  - split_and!; [done|by intros ? [= <-] ?|by intros ? [= <-] ? ? ?|].
    intros _. exists only. split_and!; [done..|]. by apply Hloop.
  - split_and!; [done|by intros ? [= <-] ?|intros ? [= <-] ? ? ?; congruence|].
    intros _. exists only. split_and!; [done..|]. apply Hloop. simpl.
    apply elem_of_union. right. by apply elem_of_singleton.
  - simpl. split_and!; [done|by intros ? [= <-] ?|done|]. by intros [|].
  - simpl. split_and!; [done|done| |]; [by intros ? [= <-] ? |by intros [|]].
Qed.

Lemma dowload_early_failures_example :
  let r := dowload plain_path slash fetch_all (λ _, false) example_album (Some "out")
             (Some {[ "z_9" ]}) ∅ in
  ending r = raised AssertionError ∧ files_after r = ∅ ∧ calls_made r = [].
Proof.
  cbv zeta.
  destruct (dowload_early_failures plain_path slash fetch_all (λ _, false)
              example_album (Some "out") (Some {[ "z_9" ]}) ∅) as (_ & H & _).
  apply (H {[ "z_9" ]}); [done|]. compute_done.
Defined.

(** X12. An image name with no underscore makes its turn raise a
    [ValueError], whether the image is asked for or not, before any call and
    with the disk untouched; and a run ends with that error only if the album
    holds such a name. *)
Theorem name_without_underscore joinpath urlretrieve self :
  (∀ outdir only i st,
     Py.occurs "_" i = false →
     dowload_body joinpath urlretrieve self outdir only i st
     = (st, raise (ValueError not_enough_values))) ∧
  (∀ Path mkdir_ok directory only fs,
     ending (dowload Path joinpath urlretrieve mkdir_ok self directory only fs)
     = raised (ValueError not_enough_values) →
     ∃ i, i ∈ image_names self ∧ Py.occurs "_" i = false).
Proof.
  split.
  - intros outdir only i st Hi. unfold dowload_body.
    pose proof (rsplit1_occurs "_" i) as Hr. rewrite Hi in Hr. by rewrite Hr.
  - intros Path mkdir_ok directory only fs. rewrite dowload_unfold.
    destruct only as [only|]; [|done]. cbv zeta.
    assert (∀ st,
      ending (run_of (dowload_loop joinpath urlretrieve self
                        (outdir_of Path self directory) only (image_names self) st))
      = raised (ValueError not_enough_values) →
      ∃ i, i ∈ image_names self ∧ Py.occurs "_" i = false) as Hloop.
    { intros st. destruct (dowload_loop _ _ _ _ _ _ _) as [st' e] eqn:Hl.
      simpl. intros ->. by apply dowload_loop_raised in Hl as [?|[_ ?]]. }
    destruct (bool_decide (only ⊆ _)); [|done].
    destruct (bool_decide (_ ∈ fs)); [apply Hloop|].
    destruct (mkdir_ok _); [apply Hloop|done].
Qed.

Lemma name_without_underscore_example :
  ending (dowload plain_path slash fetch_all any_mkdir
            {| image_names := ["a_1"; "plate2"; "c_3"]; title := "T"; iiif := "/3f" |}
            None (Some {[ "a_1" ]}) ∅)
  = raised (ValueError not_enough_values) ∧
  ∃ i, i ∈ ["a_1"; "plate2"; "c_3"] ∧ Py.occurs "_" i = false.
Proof.
  split; [vm_compute; reflexivity|].
  destruct (name_without_underscore slash fetch_all
              {| image_names := ["a_1"; "plate2"; "c_3"]; title := "T"; iiif := "/3f" |})
    as [_ H].
  apply (H plain_path any_mkdir None (Some {[ "a_1" ]}) ∅).
  vm_compute. reflexivity.
Defined.

Lemma starts_app (a b : list event) : starts (a ++ b) = (starts a ++ starts b)%list.
Proof. apply omap_app. Qed.

Lemma completions_app (a b : list event) :
  completions (a ++ b) = (completions a ++ completions b)%list.
Proof. apply omap_app. Qed.

Lemma fetches_app (a b : list event) : fetches (a ++ b) = (fetches a ++ fetches b)%list.
Proof. apply omap_app. Qed.

Section Turns_more.

Variable joinpath : string → string → string.
Variable urlretrieve : string → string → fetch.
Variable self : INHAAlbumDownloader.
Variable outdir : string.
Variable only : gset string.

Abbreviation body := (dowload_body joinpath urlretrieve self outdir only).
Abbreviation loop := (dowload_loop joinpath urlretrieve self outdir only).
Abbreviation turn_of := (turn joinpath urlretrieve self outdir only).

(** A turn that goes on for an image that is asked for leaves the output
    file of the image on the disk. *)
Lemma turn_continue_file i st st' name num :
  turn_of i st st' continue →
  Py.rsplit1 "_" i = [name; num] →
  is_selected only i →
  joinpath outdir (num +:+ ".jpg") ∈ files st'.
Proof.
  intros H Hi Hs. inversion H as
    [ Hno
    | name' num' Hr Hsel
    | name' num' c0 Hr Hsel Hc0 Hex
    | name' num' c0 c1 es Hr Hsel Hc0 Hex Hend Hc1 Hes
    | | ]; subst; simpl;
    try (by destruct Hsel);
    try (assert (num' = num) as -> by congruence).
  - done.
  - apply elem_of_union. right. by apply elem_of_singleton.
Qed.

(** What the calls of a turn look like, as the URLs started and the URLs
    completed. *)
Lemma turn_pairs i st st' ctl :
  turn_of i st st' ctl →
  ∃ es, calls st' = (calls st ++ es)%list ∧
        match ctl with
        | raise URLError =>
            Some <$> starts es
            = (((λ x, x.1.1) <$> completions es) ++ [Some (image_url self i)])%list
        | _ => Some <$> starts es = (λ x, x.1.1) <$> completions es
        end.
Proof.
  intros H. inversion H as
    [ Hno
    | name num Hr Hsel
    | name num c0 Hr Hsel Hc0 Hex
    | name num c0 c1 es Hr Hsel Hc0 Hex Hend Hc1 Hes
    | name num c0 c1 es created Hr Hsel Hc0 Hex Hend Hc1 Hes
    | name num c0 c1 es created Hr Hsel Hc0 Hex Hend Hc1 Hes ]; subst;
    try (destruct Hc1 as (_ & _ & _ & Hurl); simpl in Hurl;
         apply (progress_of_silent joinpath urlretrieve outdir) in Hes
           as (Hs & _ & Hc)).
  - exists []. by rewrite app_nil_r.
  - exists []. by rewrite app_nil_r.
  - eexists. split; [done|]. done.
  - eexists. split; [done|].
    rewrite !starts_app, !completions_app, Hs, Hc.
    unfold starts, completions. simpl. by rewrite Hurl.
  - eexists. split; [done|].
    rewrite !starts_app, !completions_app, Hs, Hc.
    unfold starts, completions. simpl. by rewrite Hurl.
  - eexists. split; [done|].
    rewrite !starts_app, !completions_app, Hs, Hc. done.
Qed.

Lemma dowload_loop_pairs names st st' e :
  loop names st = (st', e) →
  ∃ es, calls st' = (calls st ++ es)%list ∧
        match e with
        | raised URLError =>
            ∃ url, Some <$> starts es
                   = (((λ x, x.1.1) <$> completions es) ++ [Some url])%list
        | _ => Some <$> starts es = (λ x, x.1.1) <$> completions es
        end.
Proof.
  revert st. induction names as [|i names IH]; intros st; simpl.
  { intros [= <- <-]. exists []. by rewrite app_nil_r. }
  destruct (body i st) as [st1 ctl] eqn:Hb.
  apply dowload_body_inv, turn_pairs in Hb as (es1 & Hc1 & Hp1).
  destruct ctl as [| |e'].
  - intros (es2 & Hc2 & Hp2)%IH. exists (es1 ++ es2)%list.
    split; [by rewrite Hc2, Hc1, app_assoc|].
    rewrite starts_app, completions_app, !fmap_app, Hp1.
    destruct e as [| |[]]; try (by rewrite Hp2).
    destruct Hp2 as [url ->]. exists url. by rewrite app_assoc.
  - intros [= <- <-]. by exists es1.
  - intros [= <- <-]. exists es1. split; [done|]. destruct e'; eauto.
Qed.

End Turns_more.

(** X13. A fetch that fails for another reason than an interruption ends
    the run with the exception; no [on_completion] is called for the image,
    and a file the fetch had begun is left on the disk, so that on a later
    run, whatever the network, the image is skipped as done. *)
Theorem failed_fetch_leaves_file joinpath urlretrieve self outdir only i st name num :
  Py.rsplit1 "_" i = [name; num] →
  is_selected only i →
  joinpath outdir (num +:+ ".jpg") ∉ files st →
  fetch_ending (urlretrieve (image_url self i) (joinpath outdir (num +:+ ".jpg")))
  = failed true →
  ∃ st',
    dowload_body joinpath urlretrieve self outdir only i st = (st', raise URLError) ∧
    files st' = files st ∪ {[ joinpath outdir (num +:+ ".jpg") ]} ∧
    completions (calls st') = completions (calls st) ∧
    ∀ urlretrieve' st2,
      files st' ⊆ files st2 →
      dowload_body joinpath urlretrieve' self outdir only i st2 =
        (let c0 := update_current (joinpath outdir (num +:+ ".jpg"))
                     (image_url self i) (context st2) in
         {| context := add_processed c0;
            files := files st2;
            calls := calls st2
                     ++ [on_start c0; on_completion (add_processed c0) true false] |},
         continue).
Proof.
  intros Hi Hs Hout Hfail.
  destruct (dowload_body joinpath urlretrieve self outdir only i st)
    as [st' ctl] eqn:Hb.
  apply dowload_body_inv in Hb. inversion Hb as
    [ Hno
    | name' num' Hr Hsel
    | name' num' c0 Hr Hsel Hc0 Hex
    | name' num' c0 c1 es Hr Hsel Hc0 Hex Hend Hc1 Hes
    | name' num' c0 c1 es created Hr Hsel Hc0 Hex Hend Hc1 Hes
    | name' num' c0 c1 es created Hr Hsel Hc0 Hex Hend Hc1 Hes ]; subst;
    try (by destruct (Hno _ _ Hi)); try (by destruct Hsel);
    assert (num' = num) as -> by congruence; try done; try congruence.
  assert (created = true) as -> by congruence.
  eexists. split; [done|]. split; [done|]. split.
  - apply (progress_of_silent joinpath urlretrieve outdir) in Hes as (_ & _ & Hc).
    cbn [calls]. rewrite !completions_app, Hc.
    change (completions [_; _]) with (@nil (option string * bool * bool)).
    by rewrite !app_nil_r.
  - intros urlretrieve' st2 Hsub. eapply dowload_body_skips; [exact Hi|exact Hs|].
    apply Hsub, elem_of_union. right. by apply elem_of_singleton.
Qed.

Lemma failed_fetch_leaves_file_example :
  let fails (url outfile : string) :=
    {| reports := two_blocks; fetch_ending := failed true |} in
  ∃ st',
    dowload_body slash fails example_album "out" ∅ "b_2" (example_start 3)
    = (st', raise URLError) ∧
    files st' = files (example_start 3) ∪ {[ slash "out" ("2" +:+ ".jpg") ]} ∧
    completions (calls st') = completions (calls (example_start 3)) ∧
    ∀ urlretrieve' st2,
      files st' ⊆ files st2 →
      dowload_body slash urlretrieve' example_album "out" ∅ "b_2" st2 =
        (let c0 := update_current (slash "out" ("2" +:+ ".jpg"))
                     (image_url example_album "b_2") (context st2) in
         {| context := add_processed c0;
            files := files st2;
            calls := calls st2
                     ++ [on_start c0; on_completion (add_processed c0) true false] |},
         continue).
Proof.
  apply (failed_fetch_leaves_file slash _ example_album "out" ∅ "b_2"
           (example_start 3) "b" "2").
  - reflexivity.
  - by left.
  - compute_done.
  - reflexivity.
Defined.

(** X14. The output file of an image is named after the part of its name
    that follows the last underscore alone.  So when two images that are
    asked for share that part, and the turn of the first goes on, the second
    is skipped as done when the loop reaches it: it is never fetched. *)
Theorem same_suffix_skipped joinpath urlretrieve self outdir only
    i j (between : list string) st st1 st2 name1 name2 num :
  Py.rsplit1 "_" i = [name1; num] →
  Py.rsplit1 "_" j = [name2; num] →
  is_selected only i →
  is_selected only j →
  dowload_body joinpath urlretrieve self outdir only i st = (st1, continue) →
  dowload_loop joinpath urlretrieve self outdir only between st1 = (st2, finished) →
  dowload_body joinpath urlretrieve self outdir only j st2 =
    (let c0 := update_current (joinpath outdir (num +:+ ".jpg"))
                 (image_url self j) (context st2) in
     {| context := add_processed c0;
        files := files st2;
        calls := calls st2
                 ++ [on_start c0; on_completion (add_processed c0) true false] |},
     continue).
Proof.
  intros Hi Hj Hsi Hsj Hb Hl. eapply dowload_body_skips; [exact Hj|exact Hsj|].
  apply dowload_body_inv in Hb.
  apply (turn_continue_file _ _ _ _ _ _ _ _ _ _ Hb Hi) in Hsi.
  apply dowload_loop_files in Hl as [Hsub _]. by apply Hsub.
Qed.

Lemma same_suffix_skipped_example :
  ∃ st1 st2,
    dowload_body slash fetch_all example_album "out" ∅ "a_1" (example_start 3)
    = (st1, continue) ∧
    dowload_loop slash fetch_all example_album "out" ∅ ["b_2"] st1 = (st2, finished) ∧
    dowload_body slash fetch_all example_album "out" ∅ "z_1" st2 =
      (let c0 := update_current (slash "out" ("1" +:+ ".jpg"))
                   (image_url example_album "z_1") (context st2) in
       {| context := add_processed c0;
          files := files st2;
          calls := calls st2
                   ++ [on_start c0; on_completion (add_processed c0) true false] |},
       continue).
Proof.
  eexists _, _. split; [vm_compute; reflexivity|]. split; [vm_compute; reflexivity|].
  eapply (same_suffix_skipped slash fetch_all example_album "out" ∅ "a_1" "z_1"
            ["b_2"] (example_start 3) _ _ "a" "z" "1").
  - reflexivity.
  - reflexivity.
  - by left.
  - by left.
  - vm_compute. reflexivity.
  - vm_compute. reflexivity.
Defined.

(** X15. In a run, the images completed are the images started, in the same
    order; only when the run ends on a fetch that failed is the last image
    started left without a completion. *)
Theorem starts_and_completions Path joinpath urlretrieve mkdir_ok self directory only fs :
  let r := dowload Path joinpath urlretrieve mkdir_ok self directory only fs in
  match ending r with
  | raised URLError =>
      ∃ url, Some <$> starts (calls_made r)
             = (((λ x, x.1.1) <$> completions (calls_made r)) ++ [Some url])%list
  | _ => Some <$> starts (calls_made r) = (λ x, x.1.1) <$> completions (calls_made r)
  end.
Proof.
  cbv zeta. rewrite dowload_unfold. destruct only as [only|]; [|done]. cbv zeta.
  assert (∀ st,
    let r := run_of (dowload_loop joinpath urlretrieve self
                       (outdir_of Path self directory) only (image_names self) st) in
    calls st = [] →
    match ending r with
    | raised URLError =>
        ∃ url, Some <$> starts (calls_made r)
               = (((λ x, x.1.1) <$> completions (calls_made r)) ++ [Some url])%list
    | _ => Some <$> starts (calls_made r) = (λ x, x.1.1) <$> completions (calls_made r)
    end) as Hloop.
  { intros st. cbv zeta. destruct (dowload_loop _ _ _ _ _ _ _) as [st' e] eqn:Hl.
    apply dowload_loop_pairs in Hl as (es & Hc & Hp). simpl. intros Hnil.
    rewrite Hnil in Hc. simpl in Hc. by rewrite Hc. }
  destruct (bool_decide (only ⊆ _)); [|done].
  destruct (bool_decide (_ ∈ fs)); [by apply Hloop|].
  destruct (mkdir_ok _); [by apply Hloop|done].
Qed.

Lemma started_before_app (a b : list event) :
  started_before a → started_before b → started_before (a ++ b).
Proof.
  intros Ha Hb k url outfile Hk.
  destruct (decide (k < List.length a)%nat) as [Hlt|Hge].
  - rewrite lookup_app_l in Hk by done.
    destruct (Ha _ _ _ Hk) as (k' & c & -> & Hk' & Hu & Ho).
    exists k', c. split; [done|]. split; [|done].
    rewrite lookup_app_l by lia. done.
  - rewrite lookup_app_r in Hk by lia.
    destruct (Hb _ _ _ Hk) as (k' & c & Heq & Hk' & Hu & Ho).
    exists (List.length a + k')%nat, c. split; [lia|]. split; [|done].
    rewrite lookup_app_r by lia. by replace (List.length a + k' - List.length a)%nat with k' by lia.
Qed.

Lemma started_before_no_fetch (es : list event) :
  Forall (λ e, ∀ url outfile, e ≠ urlretrieve_call url outfile) es →
  started_before es.
Proof.
  intros Hes k url outfile Hk%list_elem_of_lookup_2.
  rewrite Forall_forall in Hes. by destruct (Hes _ Hk url outfile).
Qed.

Lemma started_before_fetch c0 url outfile (rest : list event) :
  current_image_url c0 = Some url →
  current_image c0 = Some outfile →
  Forall (λ e, ∀ url outfile, e ≠ urlretrieve_call url outfile) rest →
  started_before (on_start c0 :: urlretrieve_call url outfile :: rest).
Proof.
  intros Hu Ho Hrest [|[|k]] url' outfile' Hk; simpl in Hk.
  - done.
  - injection Hk as <- <-. by exists 0%nat, c0.
  - apply list_elem_of_lookup_2 in Hk. rewrite Forall_forall in Hrest.
    by destruct (Hrest _ Hk url' outfile').
Qed.

Lemma progress_of_no_fetch c0 (es : list event) :
  progress_of c0 es →
  Forall (λ e, ∀ url outfile, e ≠ urlretrieve_call url outfile) es.
Proof.
  intros Hes. eapply Forall_impl; [exact Hes|]. simpl.
  by intros e (c & -> & _) url outfile.
Qed.

Section Turns_order.

Variable joinpath : string → string → string.
Variable urlretrieve : string → string → fetch.
Variable self : INHAAlbumDownloader.
Variable outdir : string.
Variable only : gset string.

Abbreviation body := (dowload_body joinpath urlretrieve self outdir only).
Abbreviation loop := (dowload_loop joinpath urlretrieve self outdir only).
Abbreviation turn_of := (turn joinpath urlretrieve self outdir only).

Lemma turn_started_before i st st' ctl :
  turn_of i st st' ctl →
  ∃ es, calls st' = (calls st ++ es)%list ∧ started_before es.
Proof.
  intros H. inversion H as
    [ Hno
    | name num Hr Hsel
    | name num c0 Hr Hsel Hc0 Hex
    | name num c0 c1 es Hr Hsel Hc0 Hex Hend Hc1 Hes
    | name num c0 c1 es created Hr Hsel Hc0 Hex Hend Hc1 Hes
    | name num c0 c1 es created Hr Hsel Hc0 Hex Hend Hc1 Hes ]; subst;
    try (apply progress_of_no_fetch in Hes).
  - exists []. split; [by rewrite app_nil_r|]. by apply started_before_no_fetch.
  - exists []. split; [by rewrite app_nil_r|]. by apply started_before_no_fetch.
  - eexists. split; [done|]. apply started_before_no_fetch.
    by repeat constructor.
  - eexists. split; [done|]. apply started_before_fetch; [done..|].
    apply Forall_app. split; [done|]. by repeat constructor.
  - eexists. split; [done|]. apply started_before_fetch; [done..|].
    apply Forall_app. split; [done|]. by repeat constructor.
  - eexists. split; [done|]. by apply started_before_fetch.
Qed.

Lemma dowload_loop_started_before names st st' e :
  loop names st = (st', e) →
  ∃ es, calls st' = (calls st ++ es)%list ∧ started_before es.
Proof.
  revert st. induction names as [|i names IH]; intros st; simpl.
  { intros [= <- <-]. exists []. split; [by rewrite app_nil_r|].
    by apply started_before_no_fetch. }
  destruct (body i st) as [st1 ctl] eqn:Hb.
  apply dowload_body_inv, turn_started_before in Hb as (es1 & Hc1 & Hs1).
  destruct ctl as [| |e'].
  - intros (es2 & Hc2 & Hs2)%IH. exists (es1 ++ es2)%list.
    split; [by rewrite Hc2, Hc1, app_assoc|]. by apply started_before_app.
  - intros [= <- <-]. by exists es1.
  - intros [= <- <-]. by exists es1.
Qed.

(** The count of processed images when the loop runs out of images: one
    more for every image asked for; and the last call made, if any, shows
    that count. *)
Lemma dowload_loop_finished_count names st st' :
  loop names st = (st', finished) →
  (∀ ev c, last (calls st) = Some ev → event_context ev = Some c →
           processed_images c = processed_images (context st)) →
  processed_images (context st')
  = (processed_images (context st)
     + List.length (filter (is_selected only) names))%nat ∧
  (∀ ev c, last (calls st') = Some ev → event_context ev = Some c →
           processed_images c = processed_images (context st')).
Proof.
  revert st. induction names as [|i names IH]; intros st; simpl.
  { intros [= <-] Hlast. split; [lia|done]. }
  destruct (body i st) as [st1 [| |e']] eqn:Hb; [|done..].
  intros Hl Hlast. apply dowload_body_inv in Hb. rewrite filter_cons.
  assert (processed_images (context st1)
          = (processed_images (context st)
             + (if decide (is_selected only i) then 1 else 0))%nat ∧
          (∀ ev c, last (calls st1) = Some ev → event_context ev = Some c →
                   processed_images c = processed_images (context st1)))
    as [Hp1 Hlast1].
  { inversion Hb as
      [ Hno
      | name num Hr Hsel
      | name num c0 Hr Hsel Hc0 Hex
      | name num c0 c1 es Hr Hsel Hc0 Hex Hend Hc1 Hes
      | | ]; subst; cbn [context calls].
    - rewrite decide_False by done. simpl. split; [lia|done].
    - rewrite decide_True by done. split; [done|].
      match goal with |- context [last (?l ++ [?a; ?b])%list] =>
        replace (l ++ [a; b])%list with ((l ++ [a]) ++ [b])%list
          by (by rewrite <- app_assoc)
      end.
      rewrite last_snoc. by intros ev c [= <-] [= <-].
    - rewrite decide_True by done. destruct Hc1 as (_ & Hc1 & _). simpl in Hc1.
      split; [simpl; lia|].
      rewrite !app_assoc, last_snoc. by intros ev c [= <-] [= <-]. }
  destruct (IH _ Hl Hlast1) as [Hp Hlast']. split; [|done].
  rewrite Hp, Hp1. destruct (decide (is_selected only i)); simpl; lia.
Qed.

End Turns_order.

Lemma selected_count (names : list string) (only : gset string) :
  NoDup names →
  only ⊆ list_to_set names →
  List.length (filter (is_selected only) names)
  = if bool_decide (only ≠ ∅) then size only else List.length names.
Proof.
  intros Hnodup Hsub. case_bool_decide as Hne.
  - assert (only = list_to_set (filter (is_selected only) names)) as Heq.
    { apply set_eq. intros x. rewrite elem_of_list_to_set, list_elem_of_filter.
      split.
      - intros Hx. split; [by right|].
        pose proof (Hsub _ Hx) as Hx'. by apply elem_of_list_to_set in Hx'.
      - by intros [[|] _]. }
    transitivity (size (list_to_set (filter (is_selected only) names) : gset string)).
    + symmetry. apply size_list_to_set. by apply NoDup_filter.
    + by rewrite <- Heq.
  - subst. by rewrite filter_selected_empty.
Qed.

(** X16. Nothing is fetched that was not announced: in the calls of a run,
    every fetch comes right after the call of [on_start] for the same image,
    whose context names the URL fetched and the file written. *)
Theorem fetch_follows_on_start Path joinpath urlretrieve mkdir_ok self directory only fs :
  started_before
    (calls_made (dowload Path joinpath urlretrieve mkdir_ok self directory only fs)).
Proof.
  rewrite dowload_unfold. destruct only as [only|];
    [|by apply started_before_no_fetch]. cbv zeta.
  assert (∀ st, calls st = [] →
    started_before
      (calls_made (run_of (dowload_loop joinpath urlretrieve self
                             (outdir_of Path self directory) only
                             (image_names self) st)))) as Hloop.
  { intros st Hnil. destruct (dowload_loop _ _ _ _ _ _ _) as [st' e] eqn:Hl.
    apply dowload_loop_started_before in Hl as (es & Hc & Hes).
    simpl. rewrite Hc, Hnil. done. }
  destruct (bool_decide (only ⊆ _)); [|by apply started_before_no_fetch].
  destruct (bool_decide (_ ∈ fs)); [by apply Hloop|].
  destruct (mkdir_ok _); [by apply Hloop|by apply started_before_no_fetch].
Qed.

(** X17. Every call of a run is about an image, so the total it carries,
    the size of the filter or else the number of images of the album, is
    never zero: the percentage [on_start] works out divides by no zero.  On
    an album with no name twice, the count of processed images never passes
    that total. *)
Theorem total_images_positive Path joinpath urlretrieve mkdir_ok self directory only fs ev c :
  ev ∈ calls_made (dowload Path joinpath urlretrieve mkdir_ok self directory
                     (Some only) fs) →
  event_context ev = Some c →
  total_images c = (if bool_decide (only ≠ ∅) then size only else image_count self) ∧
  (0 < total_images c)%nat ∧
  (NoDup (image_names self) → (processed_images c ≤ total_images c)%nat).
Proof.
  rewrite dowload_unfold. cbv zeta.
  assert (∀ fs0,
    only ⊆ list_to_set (image_names self) →
    ev ∈ calls_made (run_of (dowload_loop joinpath urlretrieve self
                               (outdir_of Path self directory) only
                               (image_names self) (dowload_start self only fs0))) →
    event_context ev = Some c →
    total_images c = (if bool_decide (only ≠ ∅) then size only else image_count self) ∧
    (0 < total_images c)%nat ∧
    (NoDup (image_names self) → (processed_images c ≤ total_images c)%nat)) as Hloop.
  { intros fs0 Hsub. destruct (dowload_loop _ _ _ _ _ _ _) as [st' e] eqn:Hl.
    apply dowload_loop_calls in Hl as (_ & _ & es & Hc & Hes).
    simpl in *. rewrite Hc. intros Hev Hcx.
    destruct (Hes _ Hev) as [(i & Hi & Hsel & _) Hctx].
    destruct (Hctx _ Hcx) as [Ht Hp]. rewrite Ht. split; [done|]. split.
    - case_bool_decide as Hne.
      + assert (size only ≠ 0) as Hsize; [|lia].
        apply size_non_empty_iff. intros Heq. by apply Hne, leibniz_equiv.
      + unfold image_count. destruct (image_names self); [|simpl; lia].
        by apply elem_of_nil in Hi.
    - intros Hnodup. by rewrite (selected_count _ _ Hnodup Hsub) in Hp. }
  destruct (bool_decide (only ⊆ list_to_set (image_names self))) eqn:Hsub;
    [apply bool_decide_eq_true_1 in Hsub|by intros ?%elem_of_nil].
  destruct (bool_decide (_ ∈ fs)); [by apply Hloop|].
  destruct (mkdir_ok _); [by apply Hloop|by intros ?%elem_of_nil].
Qed.

(** X18. On an album with no name twice, a run that reaches the end has
    counted every image to be processed: the last call it makes shows as many
    images processed as the total. *)
Theorem finished_run_is_complete Path joinpath urlretrieve mkdir_ok self directory only fs ev c :
  NoDup (image_names self) →
  ending (dowload Path joinpath urlretrieve mkdir_ok self directory (Some only) fs)
  = finished →
  last (calls_made (dowload Path joinpath urlretrieve mkdir_ok self directory
                      (Some only) fs)) = Some ev →
  event_context ev = Some c →
  processed_images c = total_images c.
Proof.
  intros Hnodup. rewrite dowload_unfold. cbv zeta.
  assert (∀ fs0,
    only ⊆ list_to_set (image_names self) →
    let r := run_of (dowload_loop joinpath urlretrieve self
                       (outdir_of Path self directory) only
                       (image_names self) (dowload_start self only fs0)) in
    ending r = finished → last (calls_made r) = Some ev →
    event_context ev = Some c → processed_images c = total_images c) as Hloop.
  { intros fs0 Hsub. cbv zeta.
    destruct (dowload_loop _ _ _ _ _ _ _) as [st' e] eqn:Hl. simpl.
    intros -> Hlast Hcx.
    pose proof (dowload_loop_calls _ _ _ _ _ _ _ _ _ Hl) as (_ & _ & es & Hc & Hes).
    apply dowload_loop_finished_count in Hl as [Hp Hlast']; [|done].
    simpl in *. rewrite (selected_count _ _ Hnodup Hsub) in Hp.
    rewrite (Hlast' _ _ Hlast Hcx), Hp.
    assert (ev ∈ es) as Hev.
    { rewrite Hc in Hlast. by apply last_Some_elem_of in Hlast. }
    destruct (Hes _ Hev) as [_ Hctx]. by destruct (Hctx _ Hcx) as [-> _]. }
  destruct (bool_decide (only ⊆ list_to_set (image_names self))) eqn:Hsub;
    [apply bool_decide_eq_true_1 in Hsub|done].
  destruct (bool_decide (_ ∈ fs)); [by apply Hloop|].
  destruct (mkdir_ok _); [by apply Hloop|done].
Qed.

Lemma total_images_positive_example :
  let c := update_current "out/2.jpg" (image_url example_album "b_2")
             (context (example_start 1)) in
  total_images c
  = (if bool_decide (({[ "b_2" ]} : gset string) ≠ ∅)
     then size ({[ "b_2" ]} : gset string) else image_count example_album) ∧
  (0 < total_images c)%nat ∧
  (NoDup (image_names example_album) → (processed_images c ≤ total_images c)%nat).
Proof.
  cbv zeta.
  apply (total_images_positive plain_path slash fetch_all any_mkdir example_album
           (Some "out") {[ "b_2" ]} ∅
           (on_start (update_current "out/2.jpg" (image_url example_album "b_2")
                        (context (example_start 1))))); [|done].
  vm_compute. by left.
Defined.

Lemma finished_run_is_complete_example :
  ∃ ev c,
    last (calls_made (dowload plain_path slash fetch_all any_mkdir example_album
                        (Some "out") (Some {[ "a_1"; "c_3" ]}) ∅)) = Some ev ∧
    event_context ev = Some c ∧
    total_images c = 2 ∧
    processed_images c = total_images c.
Proof.
  eexists _, _. split; [vm_compute; reflexivity|]. split; [reflexivity|].
  split; [reflexivity|].
  eapply (finished_run_is_complete plain_path slash fetch_all any_mkdir example_album
            (Some "out") {[ "a_1"; "c_3" ]} ∅).
  - repeat constructor; set_solver.
  - vm_compute. reflexivity.
  - vm_compute. reflexivity.
  - reflexivity.
Defined.

(** ** What the patterns let through *)

Lemma all_in_take cls k s :
  (k ≤ Re.run cls s)%nat →
  all_in cls (Re.take k s) = true ∧ String.length (Re.take k s) = k.
Proof.
  revert k. induction s as [|c s IH]; intros [|k]; simpl; try done; try lia.
  destruct (cls c) eqn:Hc; [|lia]. intros Hk.
  destruct (IH k) as [H1 H2]; [lia|]. simpl. by rewrite H1, H2.
Qed.

Lemma longest_first_Some {A} (try : nat → option A) least k r :
  (least ≤ k)%nat →
  Re.longest_first try least k = Some r →
  ∃ j, (least ≤ j ≤ k)%nat ∧ try j = Some r.
Proof.
  induction k as [|k IH]; simpl; intros Hk.
  - destruct (try 0%nat) eqn:H0; [|done]. intros [= <-]. exists 0%nat. split; [lia|done].
  - destruct (try (S k)) eqn:HS.
    + intros [= <-]. exists (S k). split; [lia|done].
    + destruct (decide (least ≤ k)%nat); [|done].
      intros (j & Hj & Hr)%IH; [|done]. exists j. split; [lia|done].
Qed.

Lemma repeat_Some {A} cls least s (try : nat → option A) r :
  Re.repeat cls least s try = Some r →
  ∃ j, (least ≤ j ≤ Re.run cls s)%nat ∧ try j = Some r.
Proof.
  unfold Re.repeat. destruct (decide _); [|done]. by apply longest_first_Some.
Qed.

(** A match reads its group off a run of characters of the class of the
    group, at least as long as the group asks. *)
Lemma match_at_group p s g0 g :
  Re.match_at p s g0 = Some g →
  (∃ cls least, Re.group cls least ∈ p ∧ all_in cls g = true ∧
                (least ≤ String.length g)%nat) ∨
  ((∀ cls least, Re.group cls least ∉ p) ∧ g = g0).
Proof.
  revert s g0. induction p as [|[text|cls least|cls least] p IH]; intros s g0; simpl.
  - intros [= <-]. right. split; [|done]. intros cls least. apply not_elem_of_nil.
  - destruct (Re.strip_prefix text s) as [s'|]; [|done].
    intros [(cls & least & Hin & ?)|[Hno ->]]%IH.
    + left. exists cls, least. split; [by right|done].
    + right. split; [|done]. intros cls least [?|?]%elem_of_cons; [done|].
      by eapply Hno.
  - intros (j & _ & [(cls' & least' & Hin & ?)|[Hno ->]]%IH)%repeat_Some.
    + left. exists cls', least'. split; [by right|done].
    + right. split; [|done]. intros cls' least' [?|?]%elem_of_cons; [done|].
      by eapply Hno.
  - intros (j & Hj & [(cls' & least' & Hin & ?)|[Hno ->]]%IH)%repeat_Some.
    + left. exists cls', least'. split; [by right|done].
    + left. exists cls, least. split; [by left|].
      destruct (all_in_take cls j s) as [H1 H2]; [lia|]. rewrite H1, H2.
      split; [done|lia].
Qed.

Lemma search_group p s g :
  Re.search p s = Some g →
  (∃ cls least, Re.group cls least ∈ p ∧ all_in cls g = true ∧
                (least ≤ String.length g)%nat) ∨
  ((∀ cls least, Re.group cls least ∉ p) ∧ g = "").
Proof.
  induction s as [|c s IH]; simpl.
  - destruct (Re.match_at p "" "") eqn:Hm; [|done].
    intros [= <-]. by apply match_at_group in Hm.
  - destruct (Re.match_at p (String c s) "") eqn:Hm; [|done].
    intros [= <-]. by apply match_at_group in Hm.
Qed.

Lemma all_in_other_than x s :
  all_in (Re.other_than x) s = true → Py.occurs x s = false.
Proof.
  induction s as [|c s IH]; simpl; [done|].
  intros [Hc Hs]%andb_true_iff. rewrite (IH Hs), orb_false_r.
  unfold Re.other_than in Hc. by apply negb_true_iff in Hc.
Qed.

Lemma positive_length s : (1 ≤ String.length s)%nat → s ≠ "".
Proof. destruct s; simpl; [lia|done]. Qed.

Ltac group_of H :=
  unfold image_list_pattern, iiif_pattern, title_pattern in H;
  repeat (apply elem_of_cons in H as [H|H];
          [first [discriminate H | injection H as -> ->]|]);
  try (by apply elem_of_nil in H).

Lemma image_list_capture page a :
  Re.search image_list_pattern page = Some a →
  a ≠ "" ∧ Py.occurs ";" a = false.
Proof.
  intros [(cls & least & Hin & Hall & Hlen)|[Hno _]]%search_group.
  - group_of Hin. split; [by apply positive_length|by apply all_in_other_than].
  - exfalso. eapply Hno. unfold image_list_pattern. right. by left.
Qed.

Lemma iiif_capture page b :
  Re.search iiif_pattern page = Some b →
  b ≠ "" ∧ all_in Re.hex_path b = true.
Proof.
  intros [(cls & least & Hin & Hall & Hlen)|[Hno _]]%search_group.
  - group_of Hin. split; [by apply positive_length|done].
  - exfalso. eapply Hno. unfold iiif_pattern. right. by left.
Qed.

Lemma title_capture page c :
  Re.search title_pattern page = Some c → all_in Re.dot c = true.
Proof.
  intros [(cls & least & Hin & Hall & Hlen)|[Hno _]]%search_group.
  - by group_of Hin.
  - exfalso. eapply Hno. unfold title_pattern. right. right. by left.
Qed.

Lemma parse_album_page_Ok page parsed :
  parse_album_page page = Ok parsed →
  ∃ a b c,
    Re.search image_list_pattern page = Some a ∧
    Re.search iiif_pattern page = Some b ∧
    Re.search title_pattern page = Some c ∧
    parsed = <["title" := c]> (<["iiif" := b]> (<["image_list" := a]> ∅)).
Proof.
  unfold parse_album_page. simpl.
  destruct (Re.search image_list_pattern page) as [a|]; [|done].
  destruct (Re.search iiif_pattern page) as [b|]; [|done].
  destruct (Re.search title_pattern page) as [c|]; [|done].
  intros [= <-]. by exists a, b, c.
Qed.

(** X19. What [parse_album_page] returns is shaped by the patterns: the
    text of the image list is not empty and holds no semicolon, the IIIF
    path is not empty and is made of the characters a to f, 0 to 9, slash
    and hyphen only, and the title holds no line feed. *)
Theorem parse_album_page_shapes page parsed :
  parse_album_page page = Ok parsed →
  ∃ a b c,
    parsed = <["title" := c]> (<["iiif" := b]> (<["image_list" := a]> ∅)) ∧
    a ≠ "" ∧ Py.occurs ";" a = false ∧
    b ≠ "" ∧ all_in Re.hex_path b = true ∧
    all_in Re.dot c = true.
Proof.
  intros (a & b & c & Ha & Hb & Hc & ->)%parse_album_page_Ok.
  apply image_list_capture in Ha as [? ?]. apply iiif_capture in Hb as [? ?].
  apply title_capture in Hc. by exists a, b, c.
Qed.

Lemma parse_album_page_shapes_example :
  ∃ a b c,
    <["title" := "Recueil / planches "]>
      (<["iiif" := "/3f/0a-1"]> (<["image_list" := "['a_1', 'b_2', 'c_3']"]> ∅))
    = <["title" := c]> (<["iiif" := b]> (<["image_list" := a]> (∅ : gmap string string))) ∧
    a ≠ "" ∧ Py.occurs ";" a = false ∧
    b ≠ "" ∧ all_in Re.hex_path b = true ∧
    all_in Re.dot c = true.
Proof.
  apply (parse_album_page_shapes example_page). vm_compute. reflexivity.
Defined.

Lemma replace_occurs old new s :
  old ≠ new → Py.occurs old (Py.replace old new s) = false.
Proof.
  intros Hne. induction s as [|c s IH]; simpl; [done|]. rewrite IH, orb_false_r.
  destruct (decide (c = old)); by apply bool_decide_eq_false_2.
Qed.

Lemma replace_all_in cls old new s :
  cls new = true → all_in cls s = true → all_in cls (Py.replace old new s) = true.
Proof.
  intros Hnew. induction s as [|c s IH]; simpl; [done|].
  intros [Hc Hs]%andb_true_iff. rewrite (IH Hs), andb_true_r.
  by destruct (decide (c = old)).
Qed.

Lemma replace_length old new s :
  String.length (Py.replace old new s) = String.length s.
Proof. induction s as [|c s IH]; simpl; [done|]. by rewrite IH. Qed.

(** X20. The title of an album that was built holds neither a slash nor a
    line feed, so it names a single directory; and its IIIF path is not
    empty and is made of the characters a to f, 0 to 9, slash and hyphen
    only. *)
Theorem init_album_shape urlopen_read literal_eval album_url self :
  init urlopen_read literal_eval album_url = Ok self →
  Py.occurs "/" (title self) = false ∧
  all_in Re.dot (title self) = true ∧
  iiif self ≠ "" ∧
  all_in Re.hex_path (iiif self) = true.
Proof.
  unfold init. destruct (urlopen_read album_url) as [page|]; [|done]. simpl.
  destruct (parse_album_page page) as [parsed|] eqn:Hparse; [|done]. simpl.
  apply parse_album_page_Ok in Hparse as (a & b & c & _ & Hb & Hc & ->).
  apply iiif_capture in Hb as [? ?]. apply title_capture in Hc.
  destruct (parsed_lookups a b c) as (Hla & Hlb & Hlc).
  unfold getitem. rewrite Hla, Hlb, Hlc. simpl.
  destruct (literal_eval a) as [e|names]; [done|]. simpl.
  intros [= <-]. simpl. split; [by apply replace_occurs|].
  split; [by apply replace_all_in|done].
Qed.

Lemma init_album_shape_example :
  Py.occurs "/" (title example_album) = false ∧
  all_in Re.dot (title example_album) = true ∧
  iiif example_album ≠ "" ∧
  all_in Re.hex_path (iiif example_album) = true.
Proof.
  apply (init_album_shape example_urlopen literal_strings
           "https://bibliotheque-numerique.inha.fr/viewer/1").
  vm_compute. reflexivity.
Defined.

(** ** The handler that writes to the terminal *)









(** ** The byte counts of a fetch *)

Lemma add_transferred_0 c : add_transferred 0 c = c.
Proof. destruct c. unfold add_transferred. simpl. f_equal; lia. Qed.

Lemma add_transferred_add a b c :
  add_transferred b (add_transferred a c) = add_transferred (a + b) c.
Proof. unfold add_transferred. simpl. f_equal; lia. Qed.

Lemma in_bytes_snoc rs blocks block_size total :
  in_bytes (rs ++ [(blocks, block_size, total)])%list
  = (in_bytes rs + blocks * block_size)%Z.
Proof. unfold in_bytes. by rewrite foldl_app. Qed.

Lemma progress_calls_snoc c rs r :
  progress_calls c (rs ++ [r])%list
  = (progress_calls c rs
     ++ [on_progress (add_transferred (in_bytes (rs ++ [r])%list) c)])%list.
Proof.
  unfold progress_calls. rewrite length_app, Nat.add_1_r, seq_S, fmap_app. simpl.
  f_equal.
  - apply Forall_fmap_ext, Forall_forall. intros k [_ Hk]%elem_of_seq.
    by rewrite take_app_le by lia.
  - by rewrite take_ge by (rewrite length_app; simpl; lia).
Qed.

Lemma foldl_urlretrieve_cb st rs :
  foldl urlretrieve_cb st rs
  = {| context := add_transferred (in_bytes rs) (context st);
       files := files st;
       calls := (calls st ++ progress_calls (context st) rs)%list |}.
Proof.
  induction rs as [|[[blocks block_size] total] rs IH] using rev_ind.
  - simpl. unfold in_bytes, progress_calls. simpl.
    by rewrite add_transferred_0, app_nil_r, state_eta.
  - rewrite foldl_app. simpl. rewrite IH. unfold urlretrieve_cb, call, with_context.
    cbn [context files calls].
    rewrite add_transferred_add, <- (in_bytes_snoc rs blocks block_size total),
      progress_calls_snoc.
    by rewrite <- app_assoc.
Qed.

Lemma in_bytes_block_reports n block_size total :
  (2 * in_bytes (block_reports n block_size total)
   = block_size * (Z.of_nat n * (Z.of_nat n + 1)))%Z.
Proof.
  induction n as [|n IH]; [unfold block_reports, in_bytes; simpl; lia|].
  unfold block_reports in *. rewrite seq_S, fmap_app. simpl fmap at 2.
  rewrite in_bytes_snoc, Nat2Z.inj_succ. nia.
Qed.

(** X22. Over the reports of a fetch, [_urlretrieve_cb] adds the block
    number times the block size of each report to [transferred] and to
    [total_transferred] alike, touches nothing else of the context nor the
    disk, and calls [on_progress] once for each report, with the two counts
    as they are after that report. *)
Theorem urlretrieve_cb_adds_up st reports :
  let st' := foldl urlretrieve_cb st reports in
  transferred (context st') = (transferred (context st) + in_bytes reports)%Z ∧
  total_transferred (context st')
  = (total_transferred (context st) + in_bytes reports)%Z ∧
  same_image (context st') (context st) ∧
  files st' = files st ∧
  ∃ es,
    calls st' = (calls st ++ es)%list ∧
    List.length es = List.length reports ∧
    ∀ k, (k < List.length reports)%nat →
         ∃ c, es !! k = Some (on_progress c) ∧
              transferred c
              = (transferred (context st) + in_bytes (take (S k) reports))%Z ∧
              total_transferred c
              = (total_transferred (context st) + in_bytes (take (S k) reports))%Z ∧
              same_image c (context st).
Proof.
  cbv zeta. rewrite foldl_urlretrieve_cb. cbn [context files calls].
  split_and!; [done..|].
  exists (progress_calls (context st) reports). split; [done|].
  unfold progress_calls. split; [by rewrite length_fmap, length_seq|].
  intros k Hk. eexists. split.
  - rewrite list_lookup_fmap, lookup_seq_lt by done. reflexivity.
  - done.
Qed.

(** X23. The hook is given the number of blocks read so far, and the code
    adds that number times the block size at every report.  So for an image
    that is fetched in [n] blocks, reported as the standard library reports
    them, the count of bytes shown at its completion is the block size times
    [n (n + 1) / 2], not times [n]; the total grows by the same amount. *)
Theorem fetched_image_count joinpath urlretrieve self outdir only i st
    name num n block_size total :
  Py.rsplit1 "_" i = [name; num] →
  is_selected only i →
  joinpath outdir (num +:+ ".jpg") ∉ files st →
  urlretrieve (image_url self i) (joinpath outdir (num +:+ ".jpg"))
  = {| reports := block_reports n block_size total; fetch_ending := fetched |} →
  ∃ st' c,
    dowload_body joinpath urlretrieve self outdir only i st = (st', continue) ∧
    last (calls st') = Some (on_completion c false false) ∧
    (2 * transferred c = block_size * (Z.of_nat n * (Z.of_nat n + 1)))%Z ∧
    (total_transferred c = total_transferred (context st) + transferred c)%Z.
Proof.
  intros Hr Hsel Hnew Hfetch. unfold dowload_body. rewrite Hr.
  replace (bool_decide (only ≠ ∅) && bool_decide (i ∉ only)) with false; last first.
  { symmetry. apply andb_false_iff. destruct Hsel as [->|Hin].
    - left. by apply bool_decide_eq_false_2; intros ?.
    - right. by apply bool_decide_eq_false_2; intros ?. }
  unfold call at 1 2, with_context at 1 2. cbn [files context calls].
  rewrite bool_decide_eq_false_2 by done.
  rewrite Hfetch. cbn [reports fetch_ending]. rewrite foldl_urlretrieve_cb.
  unfold call, with_context, with_files. cbn [files context calls].
  eexists _, _. split; [reflexivity|]. cbn [calls].
  split; [by rewrite last_snoc|].
  cbn [add_processed add_transferred update_current transferred total_transferred].
  rewrite Z.add_0_l. split; [apply in_bytes_block_reports|done].
Qed.

Lemma fetched_image_count_example :
  ∃ st' c,
    dowload_body slash (λ _ _, {| reports := block_reports 3 8192 (-1);
                                   fetch_ending := fetched |})
      example_album "out" ∅ "b_2" (example_start 3) = (st', continue) ∧
    last (calls st') = Some (on_completion c false false) ∧
    (2 * transferred c = 8192 * (Z.of_nat 3 * (Z.of_nat 3 + 1)))%Z ∧
    (total_transferred c
     = total_transferred (context (example_start 3)) + transferred c)%Z.
Proof.
  apply (fetched_image_count slash
           (λ _ _, {| reports := block_reports 3 8192 (-1); fetch_ending := fetched |})
           example_album "out" ∅ "b_2" (example_start 3) "b" "2" 3 8192 (-1)).
  - vm_compute. reflexivity.
  - by left.
  - compute_done.
  - reflexivity.
Defined.

(** ** What a run fetches *)

Section Turns_fetch.

Variable joinpath : string → string → string.
Variable urlretrieve : string → string → fetch.
Variable self : INHAAlbumDownloader.
Variable outdir : string.
Variable only : gset string.

Abbreviation body := (dowload_body joinpath urlretrieve self outdir only).
Abbreviation loop := (dowload_loop joinpath urlretrieve self outdir only).
Abbreviation turn_of := (turn joinpath urlretrieve self outdir only).

(** A turn fetches at most once: the image of the turn, which is asked for,
    to its output file, which is not there before and is there afterwards
    when the loop goes on. *)
Lemma turn_fetches i st st' ctl :
  turn_of i st st' ctl →
  ∃ es, calls st' = (calls st ++ es)%list ∧
        (fetches es = [] ∨
         ∃ out, fetches es = [(image_url self i, out)] ∧
                is_selected only i ∧
                outfile_of joinpath outdir i = Some out ∧
                (out ∉ files st) ∧
                (ctl = continue → out ∈ files st')).
Proof.
  intros H. unfold outfile_of. inversion H as
    [ Hno
    | name num Hr Hsel
    | name num c0 Hr Hsel Hc0 Hex
    | name num c0 c1 es Hr Hsel Hc0 Hex Hend Hc1 Hes
    | name num c0 c1 es created Hr Hsel Hc0 Hex Hend Hc1 Hes
    | name num c0 c1 es created Hr Hsel Hc0 Hex Hend Hc1 Hes ]; subst;
    cbn [calls files].
  - exists []. rewrite app_nil_r. split; [done|by left].
  - exists []. rewrite app_nil_r. split; [done|by left].
  - eexists. split; [reflexivity|by left].
  - eexists. split; [reflexivity|]. right. eexists.
    rewrite !fetches_app.
    destruct (progress_of_silent joinpath urlretrieve outdir _ _ Hes) as (_ & -> & _).
    rewrite Hr. split; [reflexivity|]. repeat split; [done..|].
    intros _. apply elem_of_union. right. by apply elem_of_singleton.
  - eexists. split; [reflexivity|]. right. eexists.
    rewrite !fetches_app.
    destruct (progress_of_silent joinpath urlretrieve outdir _ _ Hes) as (_ & -> & _).
    rewrite Hr. split; [reflexivity|]. by repeat split.
  - eexists. split; [reflexivity|]. right. eexists.
    rewrite fetches_app.
    destruct (progress_of_silent joinpath urlretrieve outdir _ _ Hes) as (_ & -> & _).
    rewrite Hr. split; [reflexivity|]. by repeat split.
Qed.

Lemma dowload_loop_fetches names st st' e :
  loop names st = (st', e) →
  ∃ es js,
    calls st' = (calls st ++ es)%list ∧
    js `sublist_of` names ∧
    Forall (is_selected only) js ∧
    Forall2 (λ p j, p.1 = image_url self j ∧ outfile_of joinpath outdir j = Some p.2)
      (fetches es) js ∧
    NoDup ((λ p, p.2) <$> fetches es) ∧
    Forall (λ p, p.2 ∉ files st) (fetches es).
Proof.
  revert st. induction names as [|i names IH]; intros st; simpl.
  { intros [= <- <-]. exists [], []. rewrite app_nil_r.
    split_and!; by constructor. }
  destruct (body i st) as [st1 ctl] eqn:Hb. apply dowload_body_inv in Hb.
  pose proof (turn_files _ _ _ _ _ _ _ _ _ Hb) as [Hsub _].
  apply turn_fetches in Hb as (es1 & Hc1 & Hf1).
  assert (ctl ≠ continue →
          ∃ es js,
            calls st1 = (calls st ++ es)%list ∧
            js `sublist_of` i :: names ∧
            Forall (is_selected only) js ∧
            Forall2 (λ p j, p.1 = image_url self j
                            ∧ outfile_of joinpath outdir j = Some p.2)
              (fetches es) js ∧
            NoDup ((λ p, p.2) <$> fetches es) ∧
            Forall (λ p, p.2 ∉ files st) (fetches es)) as Hend.
  { intros _. destruct Hf1 as [Hf1|(out & Hf1 & Hsel & Hout & Hnew & _)].
    - exists es1, []. rewrite Hf1. split_and!; try constructor; try done.
      apply sublist_nil_l.
    - exists es1, [i]. rewrite Hf1. split_and!; [done|..].
      + apply sublist_skip, sublist_nil_l.
      + constructor; [done|constructor].
      + constructor; [done|constructor].
      + simpl. apply NoDup_singleton.
      + constructor; [done|constructor]. }
  destruct ctl as [| |e'].
  - clear Hend. intros (es2 & js & Hc2 & Hjs & Hsel2 & Hall & Hnd & Hout2)%IH.
    assert (Forall (λ p, p.2 ∉ files st) (fetches es2)) as Hout2'.
    { eapply Forall_impl; [exact Hout2|]. intros p Hp Hin. apply Hp, Hsub, Hin. }
    destruct Hf1 as [Hf1|(out & Hf1 & Hsel & Hout & Hnew & Hthere)].
    + exists (es1 ++ es2)%list, js. rewrite fetches_app, Hf1, Hc2, Hc1, app_assoc.
      split_and!; try done. by apply sublist_cons.
    + exists (es1 ++ es2)%list, (i :: js).
      rewrite fetches_app, Hf1, Hc2, Hc1, app_assoc. simpl.
      split_and!; [done|..].
      * by apply sublist_skip.
      * by constructor.
      * by constructor.
      * apply NoDup_cons. split; [|done].
        intros (p & Hp & Hin)%list_elem_of_fmap. simpl in Hp.
        rewrite Forall_forall in Hout2. apply (Hout2 _ Hin).
        rewrite <- Hp. by apply Hthere.
      * by constructor.
  - intros [= <- <-]. by apply Hend.
  - intros [= <- <-]. by apply Hend.
Qed.

End Turns_fetch.

(** X24. A run fetches to no path that was there when it began, never to
    the output directory itself, and to no path twice: a file on the disk is
    never written over. *)
Theorem no_file_fetched_twice Path joinpath urlretrieve mkdir_ok self directory only fs :
  let r := dowload Path joinpath urlretrieve mkdir_ok self directory only fs in
  NoDup ((λ p, p.2) <$> fetches (calls_made r)) ∧
  ∀ url out, (url, out) ∈ fetches (calls_made r) →
             (out ∉ fs) ∧ out ≠ outdir_of Path self directory.
Proof.
  cbv zeta. rewrite dowload_unfold.
  destruct only as [only|]; [|split; [constructor|by intros ?? ?%elem_of_nil]].
  cbv zeta.
  assert (∀ st, calls st = [] → fs ⊆ files st →
                outdir_of Path self directory ∈ files st →
    let r := run_of (dowload_loop joinpath urlretrieve self
                       (outdir_of Path self directory) only (image_names self) st) in
    NoDup ((λ p, p.2) <$> fetches (calls_made r)) ∧
    ∀ url out, (url, out) ∈ fetches (calls_made r) →
               (out ∉ fs) ∧ out ≠ outdir_of Path self directory) as Hloop.
  { intros st Hnil Hfs Hdir. cbv zeta.
    destruct (dowload_loop _ _ _ _ _ _ _) as [st' e] eqn:Hl.
    apply dowload_loop_fetches in Hl as (es & js & Hc & _ & _ & _ & Hnd & Hout).
    simpl. rewrite Hc, Hnil. simpl. split; [done|].
    intros url out Hin. rewrite Forall_forall in Hout.
    specialize (Hout _ Hin). simpl in Hout. split.
    - intros Hold. by apply Hout, Hfs.
    - by intros ->. }
  destruct (bool_decide (only ⊆ _));
    [|split; [constructor|by intros ?? ?%elem_of_nil]].
  destruct (bool_decide (_ ∈ fs)) eqn:Hthere.
  - apply Hloop; [done..|]. by apply bool_decide_eq_true_1 in Hthere.
  - destruct (mkdir_ok _); [|split; [constructor|by intros ?? ?%elem_of_nil]].
    apply Hloop; [done|apply union_subseteq_l|].
    apply elem_of_union. right. by apply elem_of_singleton.
Qed.

(** X25. What a run fetches follows the album: the fetches are made for
    images of the album that are asked for, in the order of the album, each
    from the URL of its image to the output file of its image. *)
Theorem fetches_follow_album Path joinpath urlretrieve mkdir_ok self directory only fs :
  let r := dowload Path joinpath urlretrieve mkdir_ok self directory (Some only) fs in
  ∃ js,
    js `sublist_of` image_names self ∧
    Forall (is_selected only) js ∧
    Forall2 (λ p j, p.1 = image_url self j
                    ∧ outfile_of joinpath (outdir_of Path self directory) j = Some p.2)
      (fetches (calls_made r)) js.
Proof.
  cbv zeta. rewrite dowload_unfold. cbv zeta.
  assert (∃ js : list string,
            js `sublist_of` image_names self ∧ Forall (is_selected only) js ∧
            Forall2 (λ p j, p.1 = image_url self j
                            ∧ outfile_of joinpath (outdir_of Path self directory) j
                              = Some p.2)
              (fetches []) js) as Hnone.
  { exists []. split_and!; [apply sublist_nil_l|constructor..]. }
  assert (∀ st, calls st = [] →
    ∃ js,
      js `sublist_of` image_names self ∧
      Forall (is_selected only) js ∧
      Forall2 (λ p j, p.1 = image_url self j
                      ∧ outfile_of joinpath (outdir_of Path self directory) j = Some p.2)
        (fetches (calls_made (run_of (dowload_loop joinpath urlretrieve self
                       (outdir_of Path self directory) only (image_names self) st))))
        js) as Hloop.
  { intros st Hnil. destruct (dowload_loop _ _ _ _ _ _ _) as [st' e] eqn:Hl.
    apply dowload_loop_fetches in Hl as (es & js & Hc & Hjs & Hsel & Hall & _ & _).
    exists js. simpl. rewrite Hc, Hnil. done. }
  destruct (bool_decide (only ⊆ _)); [|exact Hnone].
  destruct (bool_decide (_ ∈ fs)); [by apply Hloop|].
  destruct (mkdir_ok _); [by apply Hloop|exact Hnone].
Qed.
